(** * Hawkeye: the alerting engine of the Nagios birdseye watcher

    A shallow embedding of [hawkeye.js].  The script is a handful of
    closures over private variables, driven by the browser: timers,
    click listeners and one MutationObserver per watcher.  The private
    variables of every closure instance live in a store indexed by the
    identity of the instance, the browser state (interval table, class
    lists, listener lists, console) lives next to it, and every
    function of the script is a function on that [World]. *)

From stdpp Require Import base option list gmap strings.
From Stdlib Require Import ZArith Lia Ascii.

Open Scope Z_scope.
Open Scope nat_scope.

(** ** Completions

    A JavaScript call either returns or throws.  Both outcomes carry
    the state reached: effects performed before a [throw] stay. *)

Inductive Completion (S : Type) : Type :=
| Normal (s : S)
| Throw (s : S).
Arguments Normal {S} s.
Arguments Throw {S} s.

(** Sequencing of statements: what follows a call runs only when the
    call returned. *)
Definition andThen {S : Type} (c : Completion S) (k : S → Completion S)
    : Completion S :=
  match c with
  | Normal s => k s
  | Throw s => Throw s
  end.

Notation "c >>> k" := (andThen c k) (at level 61, left associativity).

(** The state in which the caller of last resort (the event loop)
    carries on: an uncaught exception is reported and dropped. *)
Definition settled {S : Type} (c : Completion S) : S :=
  match c with Normal s | Throw s => s end.

Definition threw {S : Type} (c : Completion S) : bool :=
  match c with Normal _ => false | Throw _ => true end.

(** [Array.prototype.forEach]: the callback runs on the elements in
    index order; an exception leaves the loop at once. *)
Fixpoint forEach {S A : Type} (f : A → S → Completion S) (l : list A)
    (s : S) : Completion S :=
  match l with
  | [] => Normal s
  | x :: l' => f x s >>> forEach f l'
  end.

(** ** DOM handles and object identities *)

Abbreviation Elem := nat (only parsing).
Abbreviation ref := nat (only parsing).

(** ** The Signal interface

    Every signal is a frozen object with the four methods [start],
    [stop], [add] and [empty]. *)

Module Controls.
Record t (S : Type) : Type := Build {
  start : S → Completion S;
  stop : S → Completion S;
  add : Elem → S → Completion S;
  empty : S → Completion S
}.
Arguments Build {S}.
Arguments start {S}.
Arguments stop {S}.
Arguments add {S}.
Arguments empty {S}.
End Controls.

(** ** ComposeSignal *)

Module ComposeSignal.
Section Compose.
Context {S : Type}.
Variable signals : list (Controls.t S).

Definition start : S → Completion S :=
  forEach (λ signal, Controls.start signal) signals.

Definition stop : S → Completion S :=
  forEach (λ signal, Controls.stop signal) signals.

Definition add (element : Elem) : S → Completion S :=
  forEach (λ signal, Controls.add signal element) signals.

Definition empty : S → Completion S :=
  forEach (λ signal, Controls.empty signal) signals.

Definition controls : Controls.t S :=
  Controls.Build start stop add empty.
End Compose.
End ComposeSignal.

(** ** Names of closures

    A closure is named by the function it runs and the instance whose
    variables it closes over.  Two closures are the same function
    object exactly when the instances are the same. *)

(** What [setInterval] is given in the script. *)
Inductive Callback : Type :=
| Update (b : ref)   (* [update] of the BlinkerSignal instance [b] *)
| Replay (a : ref).  (* [function() { audio.play(); }] of the AudioSignal [a] *)

#[global] Instance Callback_eq_dec : EqDecision Callback.
Proof. solve_decision. Defined.

(** The signal objects the script builds: the two leaf signals and the
    composition of a list of signals. *)
#[warnings="-register-all"]
Inductive SignalRef : Type :=
| Blinker (b : ref)
| Audio (a : ref)
| Composed (c : ref) (signals : list SignalRef).

Definition identity (s : SignalRef) : ref :=
  match s with
  | Blinker b => b
  | Audio a => a
  | Composed c _ => c
  end.

(** ** Private variables of the closures *)

(** The [Audio] element of an AudioSignal: its source, whether it is
    paused, and the outcome of every [play()] asked of it. *)
Record HTMLAudio : Type := {
  src : string;
  paused : bool;
  played : list bool
}.

Record AudioVars : Type := {
  au_time : Z;
  au_timer : option nat;
  au_audio : HTMLAudio
}.

(** The cursor [i] is a JavaScript number: [None] stands for what is
    not an index ([undefined] before the first [stop()], [NaN] after a
    remainder by zero). *)
Record BlinkerVars : Type := {
  bl_on : string;
  bl_off : string;
  bl_time : Z;
  bl_pattern : string;
  bl_timer : option nat;
  bl_i : option nat
}.

(** The variables of the function returned by [ignore_too_early_call]. *)
Record Debounce : Type := {
  first : bool;
  early : bool;
  mark : Z
}.

Record HawkeyeVars : Type := {
  hk_source : Elem;
  hk_targets : list Elem;
  hk_signal : SignalRef;
  hk_debounce : Debounce
}.

(** ** The browser *)

Inductive LogEntry : Type :=
| Message (s : string)
| Node (e : Elem)
| Nodes (l : list Elem)
| Group (title : string)
| GroupEnd.

(** The document loaded in the main frame, as far as the script reads
    it: its URL, the two anchors [be-hosts] and [be-dash], and the
    style elements appended to its head.  The anchors are elements:
    [Hawkeye] declares its parameters as [Element] and [Element[]],
    and a birdseye page has both. *)
Record Document : Type := {
  URL : string;
  be_hosts : Elem;
  be_dash : Elem;
  doc_head : list string
}.

(** [play_outcomes] is the environment's choice for the coming
    [audio.play()] calls: [true] when playback starts, [false] when the
    promise returned by [play()] is rejected.

    [targets], [blinkers], [audios] and [hawkeyes] hold the variables
    of the closure instances, under the name of the instance;
    [next_ref] is the next free name.  A function run under a name
    that holds nothing does nothing: no closure exists without its
    variables. *)
Record World : Type := {
  now : Z;
  quiet : bool;
  console : list LogEntry;
  intervals : gmap nat (Callback * Z);
  next_interval : nat;
  play_outcomes : list bool;
  classList : gmap Elem (list string);
  click : gmap Elem (list SignalRef);
  observers : gmap Elem (list ref);
  frame : Document;
  targets : gmap ref (list Elem);
  blinkers : gmap ref BlinkerVars;
  audios : gmap ref AudioVars;
  hawkeyes : gmap ref HawkeyeVars;
  next_ref : ref
}.

Definition set_now (f : Z → Z) (w : World) : World :=
  {| now := f (now w); quiet := quiet w; console := console w;
     intervals := intervals w; next_interval := next_interval w;
     play_outcomes := play_outcomes w; classList := classList w;
     click := click w; observers := observers w; frame := frame w;
     targets := targets w; blinkers := blinkers w; audios := audios w;
     hawkeyes := hawkeyes w; next_ref := next_ref w |}.

Definition set_quiet (f : bool → bool) (w : World) : World :=
  {| now := now w; quiet := f (quiet w); console := console w;
     intervals := intervals w; next_interval := next_interval w;
     play_outcomes := play_outcomes w; classList := classList w;
     click := click w; observers := observers w; frame := frame w;
     targets := targets w; blinkers := blinkers w; audios := audios w;
     hawkeyes := hawkeyes w; next_ref := next_ref w |}.

Definition set_console (f : list LogEntry → list LogEntry) (w : World) : World :=
  {| now := now w; quiet := quiet w; console := f (console w);
     intervals := intervals w; next_interval := next_interval w;
     play_outcomes := play_outcomes w; classList := classList w;
     click := click w; observers := observers w; frame := frame w;
     targets := targets w; blinkers := blinkers w; audios := audios w;
     hawkeyes := hawkeyes w; next_ref := next_ref w |}.

Definition set_intervals (f : gmap nat (Callback * Z) → gmap nat (Callback * Z)) (w : World) : World :=
  {| now := now w; quiet := quiet w; console := console w;
     intervals := f (intervals w); next_interval := next_interval w;
     play_outcomes := play_outcomes w; classList := classList w;
     click := click w; observers := observers w; frame := frame w;
     targets := targets w; blinkers := blinkers w; audios := audios w;
     hawkeyes := hawkeyes w; next_ref := next_ref w |}.

Definition set_next_interval (f : nat → nat) (w : World) : World :=
  {| now := now w; quiet := quiet w; console := console w;
     intervals := intervals w; next_interval := f (next_interval w);
     play_outcomes := play_outcomes w; classList := classList w;
     click := click w; observers := observers w; frame := frame w;
     targets := targets w; blinkers := blinkers w; audios := audios w;
     hawkeyes := hawkeyes w; next_ref := next_ref w |}.

Definition set_play_outcomes (f : list bool → list bool) (w : World) : World :=
  {| now := now w; quiet := quiet w; console := console w;
     intervals := intervals w; next_interval := next_interval w;
     play_outcomes := f (play_outcomes w); classList := classList w;
     click := click w; observers := observers w; frame := frame w;
     targets := targets w; blinkers := blinkers w; audios := audios w;
     hawkeyes := hawkeyes w; next_ref := next_ref w |}.

Definition set_classList (f : gmap Elem (list string) → gmap Elem (list string)) (w : World) : World :=
  {| now := now w; quiet := quiet w; console := console w;
     intervals := intervals w; next_interval := next_interval w;
     play_outcomes := play_outcomes w; classList := f (classList w);
     click := click w; observers := observers w; frame := frame w;
     targets := targets w; blinkers := blinkers w; audios := audios w;
     hawkeyes := hawkeyes w; next_ref := next_ref w |}.

Definition set_click (f : gmap Elem (list SignalRef) → gmap Elem (list SignalRef)) (w : World) : World :=
  {| now := now w; quiet := quiet w; console := console w;
     intervals := intervals w; next_interval := next_interval w;
     play_outcomes := play_outcomes w; classList := classList w;
     click := f (click w); observers := observers w; frame := frame w;
     targets := targets w; blinkers := blinkers w; audios := audios w;
     hawkeyes := hawkeyes w; next_ref := next_ref w |}.

Definition set_observers (f : gmap Elem (list ref) → gmap Elem (list ref)) (w : World) : World :=
  {| now := now w; quiet := quiet w; console := console w;
     intervals := intervals w; next_interval := next_interval w;
     play_outcomes := play_outcomes w; classList := classList w;
     click := click w; observers := f (observers w); frame := frame w;
     targets := targets w; blinkers := blinkers w; audios := audios w;
     hawkeyes := hawkeyes w; next_ref := next_ref w |}.

Definition set_frame (f : Document → Document) (w : World) : World :=
  {| now := now w; quiet := quiet w; console := console w;
     intervals := intervals w; next_interval := next_interval w;
     play_outcomes := play_outcomes w; classList := classList w;
     click := click w; observers := observers w; frame := f (frame w);
     targets := targets w; blinkers := blinkers w; audios := audios w;
     hawkeyes := hawkeyes w; next_ref := next_ref w |}.

Definition set_targets (f : gmap ref (list Elem) → gmap ref (list Elem)) (w : World) : World :=
  {| now := now w; quiet := quiet w; console := console w;
     intervals := intervals w; next_interval := next_interval w;
     play_outcomes := play_outcomes w; classList := classList w;
     click := click w; observers := observers w; frame := frame w;
     targets := f (targets w); blinkers := blinkers w; audios := audios w;
     hawkeyes := hawkeyes w; next_ref := next_ref w |}.

Definition set_blinkers (f : gmap ref BlinkerVars → gmap ref BlinkerVars) (w : World) : World :=
  {| now := now w; quiet := quiet w; console := console w;
     intervals := intervals w; next_interval := next_interval w;
     play_outcomes := play_outcomes w; classList := classList w;
     click := click w; observers := observers w; frame := frame w;
     targets := targets w; blinkers := f (blinkers w); audios := audios w;
     hawkeyes := hawkeyes w; next_ref := next_ref w |}.

Definition set_audios (f : gmap ref AudioVars → gmap ref AudioVars) (w : World) : World :=
  {| now := now w; quiet := quiet w; console := console w;
     intervals := intervals w; next_interval := next_interval w;
     play_outcomes := play_outcomes w; classList := classList w;
     click := click w; observers := observers w; frame := frame w;
     targets := targets w; blinkers := blinkers w; audios := f (audios w);
     hawkeyes := hawkeyes w; next_ref := next_ref w |}.

Definition set_hawkeyes (f : gmap ref HawkeyeVars → gmap ref HawkeyeVars) (w : World) : World :=
  {| now := now w; quiet := quiet w; console := console w;
     intervals := intervals w; next_interval := next_interval w;
     play_outcomes := play_outcomes w; classList := classList w;
     click := click w; observers := observers w; frame := frame w;
     targets := targets w; blinkers := blinkers w; audios := audios w;
     hawkeyes := f (hawkeyes w); next_ref := next_ref w |}.

Definition set_next_ref (f : ref → ref) (w : World) : World :=
  {| now := now w; quiet := quiet w; console := console w;
     intervals := intervals w; next_interval := next_interval w;
     play_outcomes := play_outcomes w; classList := classList w;
     click := click w; observers := observers w; frame := frame w;
     targets := targets w; blinkers := blinkers w; audios := audios w;
     hawkeyes := hawkeyes w; next_ref := f (next_ref w) |}.

(** A freshly loaded page: nothing logged, no timer, no listener, no
    object built yet.  Interval identifiers are positive. *)
Definition boot (clock : Z) (silent : bool) (outcomes : list bool)
    (doc : Document) : World :=
  {| now := clock; quiet := silent; console := [];
     intervals := ∅; next_interval := 1; play_outcomes := outcomes;
     classList := ∅; click := ∅; observers := ∅; frame := doc;
     targets := ∅; blinkers := ∅; audios := ∅; hawkeyes := ∅;
     next_ref := 0 |}.

(** *** Logging helpers *)

Definition log (message : LogEntry) (w : World) : World :=
  if quiet w then w else set_console (λ c, c ++ [message]) w.

Definition logGroup (title : string) (messages : list LogEntry)
    (w : World) : World :=
  if quiet w then w
  else
    let w1 := set_console (λ c, c ++ [Group title]) w in
    let w2 := foldl (λ w m, log m w) w1 messages in
    set_console (λ c, c ++ [GroupEnd]) w2.

(** *** Timers *)

Definition setInterval (cb : Callback) (time : Z) (w : World) : nat * World :=
  (next_interval w,
   set_next_interval S (set_intervals <[next_interval w := (cb, time)]> w)).

Definition clearInterval (t : nat) (w : World) : World :=
  set_intervals (delete t) w.

(** *** Class lists, click listeners, mutation observers

    A class list is a DOMTokenList: an ordered set of tokens.  The
    flags of a blinker are taken to be class names ([add] and [remove]
    raise on the empty string and on white space, which no class name
    has). *)

Definition classes (e : Elem) (w : World) : list string :=
  default [] (classList w !! e).

Definition token_remove (tok : string) (l : list string) : list string :=
  filter (λ t, t ≠ tok) l.

Definition token_add (tok : string) (l : list string) : list string :=
  if decide (tok ∈ l) then l else l ++ [tok].

Definition classList_remove (e : Elem) (tok : string) (w : World) : World :=
  set_classList <[e := token_remove tok (classes e w)]> w.

Definition classList_add (e : Elem) (tok : string) (w : World) : World :=
  set_classList <[e := token_add tok (classes e w)]> w.

Definition listeners (e : Elem) (w : World) : list SignalRef :=
  default [] (click w !! e).

(** A listener is the [stop] method of a signal object; adding a
    function that is already registered does nothing. *)
Definition addEventListener (e : Elem) (l : SignalRef) (w : World) : World :=
  if decide (identity l ∈ identity <$> listeners e w) then w
  else set_click <[e := listeners e w ++ [l]]> w.

Definition removeEventListener (e : Elem) (l : SignalRef) (w : World)
    : World :=
  set_click <[e := filter (λ l', identity l' ≠ identity l) (listeners e w)]> w.

Definition registered (n : Elem) (w : World) : list ref :=
  default [] (observers w !! n).

(** [observer.observe(n, {childList: true})] and [observer.disconnect()]
    of the MutationObserver [o]. *)
Definition observe (o : ref) (n : Elem) (w : World) : World :=
  if decide (o ∈ registered n w) then w
  else set_observers <[n := registered n w ++ [o]]> w.

Definition unobserve (o : ref) (w : World) : World :=
  set_observers (fmap (filter (λ o', o' ≠ o))) w.

(** ** Signal: the target collection *)

Module Signal.
Definition new (w : World) : ref * World :=
  (next_ref w, set_next_ref S (set_targets <[next_ref w := []]> w)).

Definition elements (r : ref) (w : World) : list Elem :=
  default [] (targets w !! r).

Definition add (r : ref) (element : Elem) (w : World) : World :=
  set_targets <[r := elements r w ++ [element]]> w.

Definition empty (r : ref) (w : World) : World :=
  set_targets <[r := []]> w.
End Signal.

(** ** AudioSignal *)

Definition set_au_timer (t : option nat) (v : AudioVars) : AudioVars :=
  {| au_time := au_time v; au_timer := t; au_audio := au_audio v |}.

Definition set_au_audio (el : HTMLAudio) (v : AudioVars) : AudioVars :=
  {| au_time := au_time v; au_timer := au_timer v; au_audio := el |}.

Module AudioSignal.
(** [audio.play()]: the element leaves the paused state when playback
    starts; a failure is a rejected promise, and the script drops the
    promise. *)
Definition play (a : ref) (w : World) : World :=
  match audios w !! a with
  | Some v =>
      let ok := default true (head (play_outcomes w)) in
      let el := au_audio v in
      let el' := {| src := src el;
                    paused := if ok then false else paused el;
                    played := played el ++ [ok] |} in
      set_play_outcomes (drop 1) (set_audios <[a := set_au_audio el' v]> w)
  | None => w
  end.

Definition start (a : ref) (w : World) : World :=
  match audios w !! a with
  | Some v =>
      match au_timer v with
      | None =>
          let w1 := log (Message "Hawk: start alarm") w in
          let w2 := play a w1 in
          let '(t, w3) := setInterval (Replay a) (au_time v) w2 in
          set_audios (alter (set_au_timer (Some t)) a) w3
      | Some _ => w
      end
  | None => w
  end.

Definition stop (a : ref) (w : World) : World :=
  match audios w !! a with
  | Some v =>
      match au_timer v with
      | Some t =>
          let w1 := log (Message "Hawk: stop alarm") w in
          let w2 := clearInterval t w1 in
          set_audios (alter (set_au_timer None) a) w2
      | None => w
      end
  | None => w
  end.

Definition new (uri : string) (time : Z) (w : World) : SignalRef * World :=
  let '(r, w1) := Signal.new w in
  let el := {| src := uri; paused := true; played := [] |} in
  (Audio r,
   set_audios <[r := {| au_time := time; au_timer := None;
                        au_audio := el |}]> w1).
End AudioSignal.

(** ** BlinkerSignal *)

Definition set_bl_timer (t : option nat) (v : BlinkerVars) : BlinkerVars :=
  {| bl_on := bl_on v; bl_off := bl_off v; bl_time := bl_time v;
     bl_pattern := bl_pattern v; bl_timer := t; bl_i := bl_i v |}.

Definition set_bl_i (i : option nat) (v : BlinkerVars) : BlinkerVars :=
  {| bl_on := bl_on v; bl_off := bl_off v; bl_time := bl_time v;
     bl_pattern := bl_pattern v; bl_timer := bl_timer v; bl_i := i |}.

Module BlinkerSignal.
(** [pattern[i] == "-"] *)
Definition dash (pattern : string) (i : option nat) : bool :=
  match i with
  | Some n => bool_decide (String.get n pattern = Some "-"%char)
  | None => false
  end.

(** [(i + 1) % pattern.length] *)
Definition advance (i : option nat) (len : nat) : option nat :=
  match i with
  | Some n => if decide (len = 0) then None else Some ((n + 1) mod len)
  | None => None
  end.

(** The body of the loop of [update]. *)
Definition paint (v : BlinkerVars) (elem : Elem) (w : World) : World :=
  if dash (bl_pattern v) (bl_i v)
  then classList_add elem (bl_on v) (classList_remove elem (bl_off v) w)
  else classList_add elem (bl_off v) (classList_remove elem (bl_on v) w).

Definition update (b : ref) (w : World) : World :=
  match blinkers w !! b with
  | Some v =>
      let w1 := settled (forEach (λ elem w, Normal (paint v elem w))
                           (Signal.elements b w) w) in
      let i' := advance (bl_i v) (String.length (bl_pattern v)) in
      set_blinkers (alter (set_bl_i i') b) w1
  | None => w
  end.

Definition start (b : ref) (w : World) : World :=
  match blinkers w !! b with
  | Some v =>
      match bl_timer v with
      | None =>
          let w1 := log (Message "Hawk: start blinker") w in
          let '(t, w2) := setInterval (Update b) (bl_time v) w1 in
          set_blinkers (alter (set_bl_timer (Some t)) b) w2
      | Some _ => w
      end
  | None => w
  end.

Definition stop (b : ref) (w : World) : World :=
  match blinkers w !! b with
  | Some v =>
      let w2 :=
        match bl_timer v with
        | Some t =>
            let w1 := log (Message "Hawk: stop blinker") w in
            set_blinkers (alter (set_bl_timer None) b) (clearInterval t w1)
        | None => w
        end in
      update b (set_blinkers (alter (set_bl_i (Some 0)) b) w2)
  | None => w
  end.

Definition new (on off : string) (time : Z) (pattern : string) (w : World)
    : SignalRef * World :=
  let '(r, w1) := Signal.new w in
  let v := {| bl_on := on; bl_off := off; bl_time := time;
              bl_pattern := pattern; bl_timer := None; bl_i := None |} in
  (Blinker r, stop r (set_blinkers <[r := v]> w1)).
End BlinkerSignal.

(** ** From a signal object to its methods *)

Fixpoint object (s : SignalRef) : Controls.t World :=
  match s with
  | Blinker b =>
      Controls.Build
        (λ w, Normal (BlinkerSignal.start b w))
        (λ w, Normal (BlinkerSignal.stop b w))
        (λ element w, Normal (Signal.add b element w))
        (λ w, Normal (Signal.empty b w))
  | Audio a =>
      Controls.Build
        (λ w, Normal (AudioSignal.start a w))
        (λ w, Normal (AudioSignal.stop a w))
        (λ element w, Normal (Signal.add a element w))
        (λ w, Normal (Signal.empty a w))
  | Composed _ signals => ComposeSignal.controls (List.map object signals)
  end.

(** [ComposeSignal(signals)] builds a new object; nothing else is
    allocated. *)
Definition ComposeSignal_new (signals : list SignalRef) (w : World)
    : SignalRef * World :=
  (Composed (next_ref w) signals, set_next_ref S w).

(** ** Hawkeye: the watcher *)

Definition set_hk_debounce (g : Debounce) (v : HawkeyeVars) : HawkeyeVars :=
  {| hk_source := hk_source v; hk_targets := hk_targets v;
     hk_signal := hk_signal v; hk_debounce := g |}.

Module Hawkeye.
(** [ignore_too_early_call(fnct, delta)]: the variables of the new
    closure, [mark] read from the clock. *)
Definition ignore_too_early_call (w : World) : Debounce :=
  {| first := true; early := true; mark := now w |}.

(** One call of the function [ignore_too_early_call] returns.  The
    variables of the closure are its own: [fnct] cannot reach them. *)
Definition wrapped (fnct : World → Completion World) (delta : Z)
    (g : Debounce) (w : World) : Debounce * Completion World :=
  let '(g1, w1) :=
    if bool_decide (now w - mark g ≤ delta)%Z
    then ({| first := first g; early := true; mark := mark g |},
          log (Message "Hawk: drop too early first change event") w)
    else (g, w) in
  let done := {| first := false; early := early g1; mark := mark g1 |} in
  if negb (early g1) || negb (first g1)
  then match fnct w1 with
       | Normal w2 => (done, Normal w2)
       | Throw w2 => (g1, Throw w2)
       end
  else (done, Normal w1).

(** [Hawkeye(source, targets, signal)]: one MutationObserver, named
    like the watcher that owns it. *)
Definition new (source : Elem) (targets : list Elem) (signal : SignalRef)
    (w : World) : ref * World :=
  let w1 := log (Message "Hawk: looking") w in
  let v := {| hk_source := source; hk_targets := targets;
              hk_signal := signal;
              hk_debounce := ignore_too_early_call w1 |} in
  (next_ref w1, set_next_ref S (set_hawkeyes <[next_ref w1 := v]> w1)).

(** What the MutationObserver of watcher [h] calls. *)
Definition callback (h : ref) (w : World) : Completion World :=
  match hawkeyes w !! h with
  | Some v =>
      let '(g, c) :=
        wrapped (Controls.start (object (hk_signal v))) 3000 (hk_debounce v) w in
      match c with
      | Normal w' => Normal (set_hawkeyes (alter (set_hk_debounce g) h) w')
      | Throw w' => Throw (set_hawkeyes (alter (set_hk_debounce g) h) w')
      end
  | None => Normal w
  end.

Definition connect (h : ref) (w : World) : Completion World :=
  match hawkeyes w !! h with
  | Some v =>
      let signal := hk_signal v in
      let w1 := log (Message "Hawk: start observing") w in
      let w2 := observe h (hk_source v) w1 in
      let w3 := addEventListener (hk_source v) signal w2 in
      forEach (λ elem w,
                 Controls.add (object signal) elem w >>>
                 (λ w, Normal (addEventListener elem signal w)))
              (hk_targets v) w3
  | None => Normal w
  end.

Definition disconnect (h : ref) (w : World) : Completion World :=
  match hawkeyes w !! h with
  | Some v =>
      let signal := hk_signal v in
      let w1 := log (Message "Hawk: stop observing") w in
      let w2 := unobserve h w1 in
      let w3 := removeEventListener (hk_source v) signal w2 in
      forEach (λ elem w, Normal (removeEventListener elem signal w))
              (hk_targets v) w3 >>>
      Controls.stop (object signal) >>>
      Controls.empty (object signal)
  | None => Normal w
  end.
End Hawkeye.

(** ** nagios_hawk: the controller *)

(** The variables of one [nagios_hawk] call. *)
Record HawkVars : Type := {
  observer : option ref;
  sos : SignalRef;
  alarm : SignalRef;
  signal : SignalRef
}.

Definition set_observer (o : option ref) (c : HawkVars) : HawkVars :=
  {| observer := o; sos := sos c; alarm := alarm c; signal := signal c |}.

Definition endsWith (s suffix : string) : bool :=
  let n := String.length s in
  let m := String.length suffix in
  bool_decide (m ≤ n) && bool_decide (String.substring (n - m) m s = suffix).

(** [doc.head.append(style)] *)
Definition head_append (style : string) (d : Document) : Document :=
  {| URL := URL d; be_hosts := be_hosts d; be_dash := be_dash d;
     doc_head := doc_head d ++ [style] |}.

Definition inject_style (style_str : string) (w : World) : World :=
  set_frame (head_append style_str) w.

Module nagios_hawk.
Definition pattern : string := "  - - -   ---   ---   ---   - - -  ".

Definition bell : string :=
  "https://raw.githubusercontent.com/geusebi/hawkeye/master/bell.mp3".

Definition new (w : World) : HawkVars * World :=
  let w0 := log (Message "Hawk: start") w in
  let '(sos, w1) := BlinkerSignal.new "sos-on" "sos-off" 250 pattern w0 in
  let '(alarm, w2) := AudioSignal.new bell 30000 w1 in
  let '(signal, w3) := ComposeSignal_new [sos; alarm] w2 in
  ({| observer := None; sos := sos; alarm := alarm; signal := signal |},
   w3).

Definition is_birdseye (w : World) : bool * World :=
  let result :=
    endsWith (URL (frame w)) "/components/birdseye/birdseye.php" in
  (result,
   log (Message ("Hawk: is birdseye an iframe? " +:+
                 (if result then "yes" else "no"))) w).

Definition attack (c : HawkVars) (w : World)
    : HawkVars * Completion World :=
  let w1 := log (Message "Hawk: attack") w in
  let classes := ".sos-on { background-color: gray; } " +:+
                 ".sos-off { } " in
  let w2 := inject_style classes w1 in
  let source := be_hosts (frame w2) in
  let targets := [be_dash (frame w2)] in
  let w3 := logGroup "Hawk: source and targets"
              [Node source; Nodes targets] w2 in
  let '(h, w4) := Hawkeye.new source targets (signal c) w3 in
  (set_observer (Some h) c, Hawkeye.connect h w4).

Definition rest (c : HawkVars) (w : World) : HawkVars * Completion World :=
  let w1 := log (Message "Hawk: rest") w in
  match observer c with
  | Some h => (c, Hawkeye.disconnect h w1)
  | None => (c, Normal w1)
  end.

Definition wake (c : HawkVars) (w : World) : HawkVars * Completion World :=
  let w1 := log (Message "Hawk: wake") w in
  let '(yes, w2) := is_birdseye w1 in
  if yes then attack c w2 else rest c w2.
End nagios_hawk.

(** ** What the browser does between two runs of the script *)

(** An interval fires: its callback runs and the interval stays in
    the table, whatever the callback did.  The two callbacks of the
    script return normally: a playback that fails is a rejected
    promise, which the callback has dropped. *)
Definition fire (t : nat) (w : World) : World :=
  match intervals w !! t with
  | Some (Update b, _) => BlinkerSignal.update b w
  | Some (Replay a, _) => AudioSignal.play a w
  | None => w
  end.

(** A click on [e] runs the listeners of [e], in the order in which
    they were added. *)
Definition clicked (e : Elem) (w : World) : World :=
  foldl (λ w l, settled (Controls.stop (object l) w)) w (listeners e w).

(** The child list of [n] changed: the observers registered on [n] are
    notified, in the order in which they were registered. *)
Definition mutated (n : Elem) (w : World) : World :=
  foldl (λ w o, settled (Hawkeye.callback o w)) w (registered n w).

(** ** Vocabulary of the properties *)

(** *** An invocation-order recorder for ComposeSignal

    Sub-signals are arbitrary: each method may do anything to the
    state and may throw.  [recorded k s] is [s] with a journal in
    front: every method first notes that sub-signal [k] was asked for
    it, then does what [s] does. *)

Inductive Method : Type :=
| MStart
| MStop
| MAdd (element : Elem)
| MEmpty.

Definition call {S : Type} (m : Method) (s : Controls.t S)
    : S → Completion S :=
  match m with
  | MStart => Controls.start s
  | MStop => Controls.stop s
  | MAdd element => Controls.add s element
  | MEmpty => Controls.empty s
  end.

Definition Journal : Type := list (nat * Method).

Definition noted {S : Type} (j : Journal) (c : Completion S)
    : Completion (Journal * S) :=
  match c with
  | Normal s => Normal (j, s)
  | Throw s => Throw (j, s)
  end.

Definition recorded {S : Type} (k : nat) (s : Controls.t S)
    : Controls.t (Journal * S) :=
  Controls.Build
    (λ js, noted (js.1 ++ [(k, MStart)]) (Controls.start s js.2))
    (λ js, noted (js.1 ++ [(k, MStop)]) (Controls.stop s js.2))
    (λ element js,
       noted (js.1 ++ [(k, MAdd element)]) (Controls.add s element js.2))
    (λ js, noted (js.1 ++ [(k, MEmpty)]) (Controls.empty s js.2)).

(** The sub-signals numbered from [k] on, each behind its recorder. *)
Fixpoint recorders {S : Type} (k : nat) (signals : list (Controls.t S))
    : list (Controls.t (Journal * S)) :=
  match signals with
  | [] => []
  | s :: rest => recorded k s :: recorders (Datatypes.S k) rest
  end.

(** How far down the list an operation gets: every sub-signal up to
    and including the first one whose call fails, all of them when
    none fails. *)
Fixpoint reached {S : Type} (m : Method) (signals : list (Controls.t S))
    (x : S) : nat :=
  match signals with
  | [] => 0
  | s :: rest =>
      match call m s x with
      | Normal x' => Datatypes.S (reached m rest x')
      | Throw _ => 1
      end
  end.

(** *** Schedules

    The [timer] variable of the instance a callback belongs to. *)
Definition schedule_of (cb : Callback) (w : World) : option nat :=
  match cb with
  | Update b => blinkers w !! b ≫= bl_timer
  | Replay a => audios w !! a ≫= au_timer
  end.

(** The entries of the interval table that run [cb]. *)
Definition active (cb : Callback) (w : World) : gmap nat (Callback * Z) :=
  filter (λ entry, entry.2.1 = cb) (intervals w).

(** The interval table and the [timer] variables agree: an instance
    holds the identifier of its one live interval or [undefined], and
    identifiers are not reused. *)
Record consistent (w : World) : Prop := {
  timers_fresh :
    ∀ t entry, intervals w !! t = Some entry → t < next_interval w;
  timers_armed :
    ∀ cb t, schedule_of cb w = Some t →
      ∃ period, intervals w !! t = Some (cb, period);
  timers_owned :
    ∀ t cb period, intervals w !! t = Some (cb, period) →
      schedule_of cb w = Some t
}.

(** The timer callbacks of the leaf signals a signal object is made
    of, left to right. *)
Fixpoint tickers (s : SignalRef) : list Callback :=
  match s with
  | Blinker b => [Update b]
  | Audio a => [Replay a]
  | Composed _ signals => concat (List.map tickers signals)
  end.

(** *** What a target shows

    The class list [cl] shows pattern position [k] of the blinker [v]:
    the flag that position applies is set and the other one is not. *)
Definition shows (v : BlinkerVars) (k : nat) (cl : list string) : Prop :=
  let applied :=
    if BlinkerSignal.dash (bl_pattern v) (Some k) then bl_on v else bl_off v in
  let cleared :=
    if BlinkerSignal.dash (bl_pattern v) (Some k) then bl_off v else bl_on v in
  applied ∈ cl ∧ (cleared ≠ applied → cleared ∉ cl).

(** *** Concrete scenes *)

Definition birdseye : Document :=
  {| URL := "http://nagios/nagiosxi/includes/components/birdseye/birdseye.php";
     be_hosts := 10; be_dash := 11; doc_head := [] |}.

Definition at_time (t : Z) (w : World) : World := set_now (λ _, t) w.

(** *** Notifications through the debounce filter

    The variables of the filter after the wrapped function was called
    once in each of the worlds [ws], in turn. *)
Fixpoint after_calls (fnct : World → Completion World) (delta : Z)
    (g : Debounce) (ws : list World) : Debounce :=
  match ws with
  | [] => g
  | w :: rest =>
      after_calls fnct delta (Hawkeye.wrapped fnct delta g w).1 rest
  end.

(** The world in which the wrapped function finds itself when the
    filter lets a call through: the filter has logged when inside the
    window. *)
Definition let_through (delta : Z) (g : Debounce) (w : World) : World :=
  if bool_decide (now w - mark g ≤ delta)%Z
  then log (Message "Hawk: drop too early first change event") w
  else w.

(** What one pass of [update] makes of a class list: the flag of the
    other state is removed, the flag of the current state is added. *)
Definition repaint (applied cleared : string) (cl : list string)
    : list string :=
  token_add applied (token_remove cleared cl).

Definition repainted (v : BlinkerVars) (cl : list string) : list string :=
  if BlinkerSignal.dash (bl_pattern v) (bl_i v)
  then repaint (bl_on v) (bl_off v) cl
  else repaint (bl_off v) (bl_on v) cl.

(** The cursor of the blinker [b], when [b] is a blinker. *)
Definition cursor (b : ref) (w : World) : option (option nat) :=
  bl_i <$> blinkers w !! b.

(** The outcomes of the next [n] calls of [audio.play()], given the
    environment's choices [l]: playback starts once the choices are
    used up. *)
Definition outcomes (n : nat) (l : list bool) : list bool :=
  (λ k, default true (l !! k)) <$> seq 0 n.

(** *** Leaf signals

    A composed signal comes down to its leaves.  A leaf is named by
    the callback it hands to [setInterval]: [holder] is the instance,
    [leaf_start] and [leaf_stop] its two methods. *)
Definition holder (cb : Callback) : ref :=
  match cb with
  | Update b => b
  | Replay a => a
  end.

Definition leaf_start (cb : Callback) (w : World) : World :=
  match cb with
  | Update b => BlinkerSignal.start b w
  | Replay a => AudioSignal.start a w
  end.

Definition leaf_stop (cb : Callback) (w : World) : World :=
  match cb with
  | Update b => BlinkerSignal.stop b w
  | Replay a => AudioSignal.stop a w
  end.

(** *** What signals cannot reach

    [w'] differs from [w] at most in what belongs to the signals: the
    console, the interval table, the variables of existing signal
    instances, their target collections, the class lists and the
    pending playback outcomes.  The clock, the listeners, the
    observers, the frame, the watchers and the set of allocated
    objects are those of [w]. *)
Record signal_only (w w' : World) : Prop := {
  same_now : now w' = now w;
  same_quiet : quiet w' = quiet w;
  same_click : click w' = click w;
  same_observers : observers w' = observers w;
  same_frame : frame w' = frame w;
  same_hawkeyes : hawkeyes w' = hawkeyes w;
  same_next_ref : next_ref w' = next_ref w;
  same_blinkers : dom (blinkers w') = dom (blinkers w);
  same_audios : dom (audios w') = dom (audios w)
}.

(** Objects are named in the order of their construction: nothing
    lives at [next_ref] or beyond. *)
Record allotted (w : World) : Prop := {
  blinkers_allotted : ∀ r, next_ref w ≤ r → blinkers w !! r = None;
  audios_allotted : ∀ r, next_ref w ≤ r → audios w !! r = None;
  hawkeyes_allotted : ∀ r, next_ref w ≤ r → hawkeyes w !! r = None
}.

(** [w'] differs from [w] at most in the console, the listeners, the
    observers and the target collections: what wiring a watcher up
    or down writes, short of stopping its signal. *)
Record wiring_only (w w' : World) : Prop := {
  wired_now : now w' = now w;
  wired_quiet : quiet w' = quiet w;
  wired_intervals : intervals w' = intervals w;
  wired_next_interval : next_interval w' = next_interval w;
  wired_play_outcomes : play_outcomes w' = play_outcomes w;
  wired_classList : classList w' = classList w;
  wired_frame : frame w' = frame w;
  wired_blinkers : blinkers w' = blinkers w;
  wired_audios : audios w' = audios w;
  wired_hawkeyes : hawkeyes w' = hawkeyes w;
  wired_next_ref : next_ref w' = next_ref w
}.

Definition sound (w : World) : Prop := consistent w ∧ allotted w.

(** *** Runs of the page

    What can happen once [nagios_hawk] has returned: the frame loads a
    document (the [load] listener calls [wake]), somebody calls one of
    the exported controls, an interval fires, an element is clicked,
    the child list of a node changes, time passes, [doc.quiet] is set,
    the environment settles the outcome of coming playbacks. *)
Inductive Event : Type :=
| Load (doc : Document)
| Attack
| Rest
| Wake
| Tick (t : nat)
| Click (e : Elem)
| ChildList (n : Elem)
| Clock (t : Z)
| Quiet (silent : bool)
| Playback (l : list bool).

Definition returned (r : HawkVars * Completion World) : HawkVars * World :=
  (r.1, settled r.2).

Definition step (ev : Event) (st : HawkVars * World) : HawkVars * World :=
  match ev with
  | Load doc => returned (nagios_hawk.wake st.1 (set_frame (λ _, doc) st.2))
  | Attack => returned (nagios_hawk.attack st.1 st.2)
  | Rest => returned (nagios_hawk.rest st.1 st.2)
  | Wake => returned (nagios_hawk.wake st.1 st.2)
  | Tick t => (st.1, fire t st.2)
  | Click e => (st.1, clicked e st.2)
  | ChildList n => (st.1, mutated n st.2)
  | Clock t => (st.1, at_time t st.2)
  | Quiet silent => (st.1, set_quiet (λ _, silent) st.2)
  | Playback l => (st.1, set_play_outcomes (λ _, l) st.2)
  end.

Definition run (evs : list Event) (st : HawkVars * World)
    : HawkVars * World :=
  foldl (λ st ev, step ev st) st evs.

(** The birdseye page after a reload: a new document, new nodes. *)
Definition reloaded : Document :=
  {| URL := "http://nagios/nagiosxi/includes/components/birdseye/birdseye.php";
     be_hosts := 20; be_dash := 21; doc_head := [] |}.

(** The page right after the script ran, at time 0, with logging off
    and every playback succeeding. *)
Definition page : HawkVars * World :=
  nagios_hawk.new (boot 0 true [] birdseye).

(** Two sub-signals for the recorder: one whose methods count their
    calls, one whose methods throw. *)
Definition steady : Controls.t nat :=
  Controls.Build (λ n, Normal (S n)) (λ n, Normal (S n))
    (λ _ n, Normal (S n)) (λ n, Normal (S n)).

Definition broken : Controls.t nat :=
  Controls.Build (λ n, Throw n) (λ n, Throw n) (λ _ n, Throw n)
    (λ n, Throw n).

(** *** Uses of one blinker

    What can be done to a blinker once it is built: one of its four
    methods is called ([Some m]), or its interval fires ([None]). *)
Definition blinker_step (b : ref) (u : option Method) (w : World) : World :=
  match u with
  | Some m => settled (call m (object (Blinker b)) w)
  | None => BlinkerSignal.update b w
  end.

(** The [timer] variable of the instance behind a callback: [None]
    when there is no such instance, [Some None] when it holds no
    interval. *)
Definition timer_state (cb : Callback) (w : World) : option (option nat) :=
  match cb with
  | Update b => bl_timer <$> blinkers w !! b
  | Replay a => au_timer <$> audios w !! a
  end.

(** [w'] is [w] with more on the console. *)
Definition only_console (w w' : World) : Prop :=
  w' = set_console (λ _, console w') w.

(** A page of the site that is not the birdseye. *)
Definition elsewhere : Document :=
  {| URL := "http://nagios/nagiosxi/index.php";
     be_hosts := 30; be_dash := 31; doc_head := [] |}.

(** The loop of [connect] over the targets, with the signal come down
    to its leaves: the target goes to every leaf, then gets the
    [stop] listener. *)
Definition connect_loop (s : SignalRef) (w : World) (l : list Elem) : World :=
  foldl (λ w elem,
           addEventListener elem s
             (foldl (λ w cb, Signal.add (holder cb) elem w) w (tickers s)))
    w l.

(** [w'] has the blinkers and the alarms of [w]: none was built, none
    is gone. *)
Definition same_signals (w w' : World) : Prop :=
  dom (blinkers w') = dom (blinkers w) ∧ dom (audios w') = dom (audios w).

(** The route that tells the birdseye page, and the style sheet
    [attack] injects. *)
Definition route : string := "/components/birdseye/birdseye.php".

Definition sos_style : string :=
  ".sos-on { background-color: gray; } " +:+ ".sos-off { } ".

(** * Properties *)

(** ** ComposeSignal: list order, no isolation *)

Section ComposeOrder.
Context {S : Type}.
Implicit Types (signals : list (Controls.t S)) (m : Method) (j : Journal).

Lemma call_composed (l : list (Controls.t (Journal * S))) m :
  call m (ComposeSignal.controls l) = forEach (call m) l.
Proof. by destruct m. Qed.

Lemma call_recorded k (s : Controls.t S) m j x :
  call m (recorded k s) (j, x) = noted (j ++ [(k, m)]) (call m s x).
Proof. by destruct m. Qed.

Lemma reached_le m signals x : reached m signals x ≤ length signals.
Proof.
  revert x. induction signals as [|s rest IH]; intros x; simpl; [lia|].
  destruct (call m s x) as [x'|x']; [specialize (IH x')|]; lia.
Qed.

(** The journal after an operation of the composition: the recorders
    [k], [k+1], ... were asked in turn, as far as [reached] says. *)
Lemma journal_recorders m signals k j x :
  (settled (forEach (call m) (recorders k signals) (j, x))).1
  = j ++ ((λ i, (i, m)) <$> seq k (reached m signals x)).
Proof.
  revert k j x. induction signals as [|s rest IH]; intros k j x; simpl.
  - by rewrite app_nil_r.
  - rewrite call_recorded. destruct (call m s x) as [x'|x']; simpl.
    + rewrite IH. by rewrite <- app_assoc.
    + done.
Qed.

(** The recorders only listen: outcome and state are those of the
    bare sub-signals. *)
Lemma recorders_transparent m signals k j x :
  threw (forEach (call m) (recorders k signals) (j, x))
  = threw (forEach (call m) signals x)
  ∧ (settled (forEach (call m) (recorders k signals) (j, x))).2
    = settled (forEach (call m) signals x).
Proof.
  revert k j x. induction signals as [|s rest IH]; intros k j x; simpl.
  - done.
  - rewrite call_recorded. destruct (call m s x) as [x'|x']; simpl.
    + apply IH.
    + done.
Qed.

Lemma completes_reaches_all m signals x :
  threw (forEach (call m) signals x) = false →
  reached m signals x = length signals.
Proof.
  revert x. induction signals as [|s rest IH]; intros x; simpl; [done|].
  destruct (call m s x) as [x'|x']; simpl; [|done].
  intros H. by rewrite IH.
Qed.

Lemma failure_cuts_short m signals x :
  threw (forEach (call m) signals x) = true →
  ∃ pre s post x',
    signals = pre ++ s :: post ∧
    forEach (call m) pre x = Normal x' ∧
    threw (call m s x') = true ∧
    reached m signals x = Datatypes.S (length pre).
Proof.
  revert x. induction signals as [|s rest IH]; intros x; simpl; [done|].
  destruct (call m s x) as [x'|x'] eqn:E; simpl.
  - intros H. destruct (IH x' H) as (pre & s' & post & y & -> & Hp & Hs & Hr).
    exists (s :: pre), s', post, y. simpl. rewrite E. simpl.
    by rewrite Hr.
  - intros _. exists [], s, rest, x. simpl. by rewrite E.
Qed.

(** C7.  Whatever the sub-signals do, an operation [m] of the
    composition asks the sub-signals for the same operation one
    after the other in list order (the journal gains the entries
    [(0, m)], [(1, m)], ... and nothing else).  When the operation
    completes, every sub-signal was asked.  When it fails, the list
    splits into a prefix that completed, the sub-signal that threw,
    and a rest that was never asked. *)
Theorem compose_in_order_until_failure signals m j x :
  let run := call m (ComposeSignal.controls (recorders 0 signals)) (j, x) in
  let n := reached m signals x in
  (settled run).1 = j ++ ((λ k, (k, m)) <$> seq 0 n)
  ∧ n ≤ length signals
  ∧ (threw run = false → n = length signals)
  ∧ (threw run = true →
       ∃ pre s post x',
         signals = pre ++ s :: post ∧
         forEach (call m) pre x = Normal x' ∧
         threw (call m s x') = true ∧
         n = Datatypes.S (length pre)).
Proof.
  cbv zeta. rewrite call_composed.
  destruct (recorders_transparent m signals 0 j x) as [Ht _].
  split; [apply journal_recorders|].
  split; [apply reached_le|].
  rewrite Ht. split.
  - apply completes_reaches_all.
  - apply failure_cuts_short.
Qed.
End ComposeOrder.

(** [ComposeSignal([A, B, C]).start()] with a [B] that throws: [A]
    then [B] are asked, [C] never is. *)
Lemma compose_in_order_until_failure_witness :
  (settled (Controls.start
              (ComposeSignal.controls (recorders 0 [steady; broken; steady]))
              ([], 0))).1
  = [(0, MStart); (1, MStart)].
Proof.
  exact (proj1 (compose_in_order_until_failure [steady; broken; steady]
                  MStart [] 0)).
Defined.

(** ** The startup debounce of the watcher *)

Section Debounce.
Variable fnct : World → Completion World.
Variable delta : Z.

(** The first call never reaches [fnct]: [early] starts out [true]
    and nothing ever clears it. *)
Lemma first_call_never_runs (w0 w : World) :
  Hawkeye.wrapped fnct delta (Hawkeye.ignore_too_early_call w0) w
  = ({| first := false; early := true; mark := now w0 |},
     Normal (let_through delta (Hawkeye.ignore_too_early_call w0) w)).
Proof.
  unfold Hawkeye.wrapped, let_through, Hawkeye.ignore_too_early_call. simpl.
  by case_bool_decide.
Qed.

(** Once [first] is [false] every call reaches [fnct]. *)
Lemma later_call_runs (g : Debounce) (w : World) :
  first g = false →
  (Hawkeye.wrapped fnct delta g w).2 = fnct (let_through delta g w)
  ∧ first (Hawkeye.wrapped fnct delta g w).1 = false.
Proof.
  intros Hf. unfold Hawkeye.wrapped, let_through.
  case_bool_decide; simpl; rewrite Hf; simpl; rewrite ?orb_true_r;
    by destruct (fnct _).
Qed.

Lemma after_calls_not_first (g : Debounce) (ws : list World) :
  first g = false → first (after_calls fnct delta g ws) = false.
Proof.
  revert g. induction ws as [|w rest IH]; intros g Hf; simpl; [done|].
  apply IH. by apply later_call_runs.
Qed.

Lemma after_first_call (w0 : World) (ws : list World) :
  ws ≠ [] →
  first (after_calls fnct delta (Hawkeye.ignore_too_early_call w0) ws)
  = false.
Proof.
  destruct ws as [|w rest]; [done|]. intros _. simpl.
  rewrite first_call_never_runs. by apply after_calls_not_first.
Qed.
End Debounce.

(** C2.  A watcher wraps [fnct] in the world [w0], with the window of
    3000.  Called for the first time in a world [w] with
    [now - mark ≤ 3000], the wrapper returns without running [fnct]:
    the outcome is [w] with the one log line of the wrapper, whatever
    [fnct] is.  After that first call and any number of further ones,
    in any worlds and at any times, a call of the wrapper is exactly a
    call of [fnct]. *)
Theorem only_first_call_is_debounced (fnct : World → Completion World)
    (w0 w : World) (further : list World) :
  (now w - now w0 ≤ 3000)%Z →
  let g0 := Hawkeye.ignore_too_early_call w0 in
  (Hawkeye.wrapped fnct 3000 g0 w).2
  = Normal (log (Message "Hawk: drop too early first change event") w)
  ∧ ∀ w',
      let g := after_calls fnct 3000 g0 (w :: further) in
      (Hawkeye.wrapped fnct 3000 g w').2 = fnct (let_through 3000 g w').
Proof.
  intros Hin g0. split.
  - unfold g0. rewrite first_call_never_runs. simpl.
    unfold let_through. simpl. by rewrite bool_decide_eq_true_2.
  - intros w' g. apply later_call_runs. by apply after_first_call.
Qed.

(** Wrapped at [t0 = 0], with the alarm's [start] inside: a trigger at
    1000 is dropped and a second one at 1500, still inside the window,
    starts the alarm. *)
Lemma only_first_call_is_debounced_witness :
  let w0 := (AudioSignal.new nagios_hawk.bell 30000
               (boot 0 true [] birdseye)).2 in
  let fnct := Controls.start (object (Audio 0)) in
  let g0 := Hawkeye.ignore_too_early_call w0 in
  (Hawkeye.wrapped fnct 3000 g0 (at_time 1000 w0)).2
  = Normal (at_time 1000 w0)
  ∧ (Hawkeye.wrapped fnct 3000
       (after_calls fnct 3000 g0 [at_time 1000 w0]) (at_time 1500 w0)).2
    = Normal (AudioSignal.start 0 (at_time 1500 w0)).
Proof.
  intros w0 fnct g0.
  destruct (only_first_call_is_debounced fnct w0 (at_time 1000 w0) []) as [H1 H2].
  - vm_compute. discriminate.
  - split.
    + exact H1.
    + exact (H2 (at_time 1500 w0)).
Defined.

(** C1.  A wrapper made at time 0 and called for the first time at
    time 5000, after the window of 3000 has elapsed, returns without
    running [fnct], whatever [fnct] is: the world is as it was.  On the
    page: the controller attacks at time 0 and the first change of the
    host list arrives at time 5000; the notification is the watcher's
    first, and it does not start the signal (no interval is armed, the
    alarm was never played).  The same notification delivered once
    more does start it. *)
Theorem first_change_after_window_is_dropped
    (fnct : World → Completion World) :
  let w := (nagios_hawk.attack page.1 page.2).2 in
  let w1 := settled w in
  let w2 := mutated (be_hosts birdseye) (at_time 5000 w1) in
  let w3 := mutated (be_hosts birdseye) w2 in
  (Hawkeye.wrapped fnct 3000 (Hawkeye.ignore_too_early_call page.2)
     (at_time 5000 page.2)).2
  = Normal (at_time 5000 page.2)
  ∧ (hk_debounce <$> (hawkeyes w1 !! 3)
     = Some {| first := true; early := true; mark := 0 |})
  ∧ (5000 - 0 > 3000)%Z
  ∧ intervals w2 = ∅
  ∧ (played ∘ au_audio <$> (audios w2 !! 1) = Some [])
  ∧ (played ∘ au_audio <$> (audios w3 !! 1) = Some [true])
  ∧ dom (intervals w3) = {[1; 2]}.
Proof.
  split; [by rewrite first_call_never_runs|].
  vm_compute. repeat split; reflexivity.
Qed.

(** ** Reading the world after an update *)

Lemma World_eq (w w' : World) :
  now w = now w' → quiet w = quiet w' → console w = console w' →
  intervals w = intervals w' → next_interval w = next_interval w' →
  play_outcomes w = play_outcomes w' → classList w = classList w' →
  click w = click w' → observers w = observers w' → frame w = frame w' →
  targets w = targets w' → blinkers w = blinkers w' →
  audios w = audios w' → hawkeyes w = hawkeyes w' →
  next_ref w = next_ref w' → w = w'.
Proof. destruct w, w'; simpl; intros; subst; reflexivity. Qed.

Lemma log_console (m : LogEntry) (w : World) :
  log m w = set_console (λ c, if quiet w then c else c ++ [m]) w.
Proof. unfold log. by destruct w as [? []]. Qed.

Lemma forEach_total {S A : Type} (f : A → S → S) (l : list A) (s : S) :
  forEach (λ x s, Normal (f x s)) l s = Normal (foldl (λ s x, f x s) s l).
Proof. revert s. induction l as [|x l IH]; intros s; simpl; [done|apply IH]. Qed.

(** *** Class tokens *)

Lemma elem_of_token_add (tok x : string) (l : list string) :
  x ∈ token_add tok l ↔ x ∈ l ∨ x = tok.
Proof.
  unfold token_add. case_decide.
  - split; [by left|]. by intros [?| ->].
  - rewrite elem_of_app, list_elem_of_singleton. tauto.
Qed.

Lemma elem_of_token_remove (tok x : string) (l : list string) :
  x ∈ token_remove tok l ↔ x ∈ l ∧ x ≠ tok.
Proof. unfold token_remove. rewrite list_elem_of_filter. tauto. Qed.

Lemma token_add_present (tok : string) (l : list string) :
  tok ∈ l → token_add tok l = l.
Proof. unfold token_add. by case_decide. Qed.

Lemma token_remove_absent (tok : string) (l : list string) :
  tok ∉ l → token_remove tok l = l.
Proof.
  unfold token_remove. induction l as [|x l IH]; [done|].
  intros Hn. rewrite filter_cons. rewrite decide_True by set_solver.
  f_equal. apply IH. set_solver.
Qed.

Lemma token_remove_add_same (tok : string) (l : list string) :
  token_remove tok (token_add tok l) = token_remove tok l.
Proof.
  unfold token_add. case_decide; [done|].
  unfold token_remove. rewrite filter_app. simpl.
  rewrite filter_cons, decide_False by tauto.
  by rewrite filter_nil, app_nil_r.
Qed.

Lemma token_remove_idem (tok : string) (l : list string) :
  token_remove tok (token_remove tok l) = token_remove tok l.
Proof.
  apply token_remove_absent. rewrite elem_of_token_remove. tauto.
Qed.

Lemma repaint_idem (applied cleared : string) (cl : list string) :
  repaint applied cleared (repaint applied cleared cl)
  = repaint applied cleared cl.
Proof.
  unfold repaint. destruct (decide (cleared = applied)) as [->|Hne].
  - by rewrite token_remove_add_same, token_remove_idem.
  - rewrite (token_remove_absent cleared).
    + apply token_add_present. rewrite elem_of_token_add. by right.
    + rewrite elem_of_token_add, elem_of_token_remove. tauto.
Qed.

Lemma repaint_shows (applied cleared : string) (cl : list string) :
  applied ∈ repaint applied cleared cl
  ∧ (cleared ≠ applied → cleared ∉ repaint applied cleared cl).
Proof.
  unfold repaint. split.
  - rewrite elem_of_token_add. by right.
  - intros Hne. rewrite elem_of_token_add, elem_of_token_remove. tauto.
Qed.

(** ** BlinkerSignal *)

Section Blinker.
Implicit Types (w : World) (b : ref) (v : BlinkerVars) (e : Elem).

Lemma repainted_idem v (cl : list string) :
  repainted v (repainted v cl) = repainted v cl.
Proof.
  unfold repainted. destruct (BlinkerSignal.dash _ _); apply repaint_idem.
Qed.

Lemma paint_classes v e e' w :
  classes e' (BlinkerSignal.paint v e w)
  = if decide (e' = e) then repainted v (classes e w) else classes e' w.
Proof.
  unfold BlinkerSignal.paint, repainted, repaint, classList_add,
    classList_remove, classes.
  destruct (BlinkerSignal.dash _ _); simpl;
    rewrite !lookup_insert; repeat case_decide; simpl; congruence.
Qed.

(** The loop of [update] writes class lists and nothing else. *)
Lemma paint_all_frame v (l : list Elem) w :
  foldl (λ w e, BlinkerSignal.paint v e w) w l
  = set_classList
      (λ _, classList (foldl (λ w e, BlinkerSignal.paint v e w) w l)) w.
Proof.
  revert w. induction l as [|e l IH]; intros w; simpl.
  - by destruct w.
  - rewrite IH at 1. unfold BlinkerSignal.paint.
    by destruct (BlinkerSignal.dash _ _).
Qed.

Lemma paint_all_classes v (l : list Elem) w e :
  classes e (foldl (λ w e, BlinkerSignal.paint v e w) w l)
  = if decide (e ∈ l) then repainted v (classes e w) else classes e w.
Proof.
  revert w. induction l as [|e0 l IH]; intros w; cbn [foldl].
  - case_decide as Hin; [by apply elem_of_nil in Hin|done].
  - rewrite IH, !paint_classes.
    destruct (decide (e = e0)) as [->|Hne].
    + rewrite (decide_True (P := e0 ∈ e0 :: l)) by apply list_elem_of_here.
      case_decide; [apply repainted_idem|done].
    + destruct (decide (e ∈ l)) as [Hin|Hout].
      * rewrite decide_True; [done|]. by apply list_elem_of_further.
      * rewrite decide_False; [done|].
        rewrite elem_of_cons. tauto.
Qed.

Lemma update_unfold b w v :
  blinkers w !! b = Some v →
  BlinkerSignal.update b w
  = set_blinkers
      (alter (set_bl_i (BlinkerSignal.advance (bl_i v)
                          (String.length (bl_pattern v)))) b)
      (foldl (λ w e, BlinkerSignal.paint v e w) w (Signal.elements b w)).
Proof.
  intros H. unfold BlinkerSignal.update. rewrite H.
  by rewrite forEach_total.
Qed.

Lemma update_vars b w v :
  blinkers w !! b = Some v →
  blinkers (BlinkerSignal.update b w) !! b
  = Some (set_bl_i (BlinkerSignal.advance (bl_i v)
                      (String.length (bl_pattern v))) v).
Proof.
  intros H. rewrite (update_unfold b w v H). simpl.
  rewrite paint_all_frame. simpl.
  rewrite lookup_alter_eq. by rewrite H.
Qed.

Lemma update_classes b w v e :
  blinkers w !! b = Some v →
  classes e (BlinkerSignal.update b w)
  = if decide (e ∈ Signal.elements b w)
    then repainted v (classes e w) else classes e w.
Proof.
  intros H. rewrite (update_unfold b w v H).
  apply (paint_all_classes v (Signal.elements b w) w e).
Qed.

Lemma update_targets b w :
  targets (BlinkerSignal.update b w) = targets w.
Proof.
  unfold BlinkerSignal.update. destruct (blinkers w !! b) as [v|]; [|done].
  rewrite forEach_total. simpl. by rewrite paint_all_frame.
Qed.

(** [stop] is [update] run from cursor 0 with the schedule gone. *)
Lemma stop_unfold b w v :
  blinkers w !! b = Some v →
  ∃ w', BlinkerSignal.stop b w = BlinkerSignal.update b w'
    ∧ blinkers w' !! b = Some (set_bl_i (Some 0) (set_bl_timer None v))
    ∧ classList w' = classList w
    ∧ targets w' = targets w.
Proof.
  intros H. unfold BlinkerSignal.stop. rewrite H.
  destruct (bl_timer v) as [t|] eqn:Ht; eexists; (split; [reflexivity|]).
  - rewrite log_console. simpl. rewrite !lookup_alter_eq, H. done.
  - simpl. rewrite lookup_alter_eq, H. simpl.
    unfold set_bl_i, set_bl_timer. simpl. by rewrite Ht.
Qed.

Lemma stop_vars b w v :
  blinkers w !! b = Some v →
  blinkers (BlinkerSignal.stop b w) !! b
  = Some (set_bl_i (BlinkerSignal.advance (Some 0)
                      (String.length (bl_pattern v)))
            (set_bl_timer None v)).
Proof.
  intros H. destruct (stop_unfold b w v H) as (w' & -> & Hv & _ & _).
  by rewrite (update_vars b w' _ Hv).
Qed.

Lemma stop_targets b w :
  targets (BlinkerSignal.stop b w) = targets w.
Proof.
  destruct (blinkers w !! b) as [v|] eqn:H.
  - destruct (stop_unfold b w v H) as (w' & -> & _ & _ & Ht).
    by rewrite update_targets.
  - unfold BlinkerSignal.stop. by rewrite H.
Qed.

Lemma stop_classes b w v e :
  blinkers w !! b = Some v →
  classes e (BlinkerSignal.stop b w)
  = if decide (e ∈ Signal.elements b w)
    then repainted (set_bl_i (Some 0) v) (classes e w) else classes e w.
Proof.
  intros H. destruct (stop_unfold b w v H) as (w' & -> & Hv & Hc & Ht).
  rewrite (update_classes b w' _ e Hv).
  unfold Signal.elements, classes. by rewrite Hc, Ht.
Qed.

(** Ticks move the cursor and touch neither the flags nor the
    pattern of the instance. *)
Lemma ticks_keep_look b w v (ticks : nat) :
  blinkers w !! b = Some v →
  ∃ v', blinkers (Nat.iter ticks (BlinkerSignal.update b) w) !! b = Some v'
    ∧ bl_on v' = bl_on v ∧ bl_off v' = bl_off v
    ∧ bl_pattern v' = bl_pattern v.
Proof.
  intros H. induction ticks as [|n (v' & Hv' & Hon & Hoff & Hpat)]; simpl.
  - by exists v.
  - eexists. split; [by apply update_vars|]. done.
Qed.

Lemma first_position_shown v v' (cl : list string) :
  bl_on v' = bl_on v → bl_off v' = bl_off v →
  bl_pattern v' = bl_pattern v →
  shows v 0 (repainted (set_bl_i (Some 0) v') cl).
Proof.
  intros Hon Hoff Hpat. unfold shows, repainted.
  cbn [set_bl_i bl_on bl_off bl_pattern bl_i].
  rewrite Hon, Hoff, Hpat.
  destruct (BlinkerSignal.dash _ _); apply repaint_shows.
Qed.
End Blinker.

(** C4 (as the code has it).  [stop] paints position 0 and then steps
    the cursor like every [update] does: when [stop()] returns, at
    construction or later, from whatever state, the cursor is
    [1 mod length(pattern)], the position the next tick will paint.  It
    is 0 only for a pattern of length 1. *)
Theorem stop_leaves_cursor_one_past_start (b : ref) (w : World)
    (v : BlinkerVars) (on off : string) (time : Z) (pattern : string)
    (w0 : World) :
  blinkers w !! b = Some v →
  1 ≤ String.length (bl_pattern v) →
  1 ≤ String.length pattern →
  cursor b (BlinkerSignal.stop b w)
  = Some (Some (1 mod String.length (bl_pattern v)))
  ∧ (BlinkerSignal.new on off time pattern w0).1 = Blinker (next_ref w0)
  ∧ cursor (next_ref w0) (BlinkerSignal.new on off time pattern w0).2
    = Some (Some (1 mod String.length pattern)).
Proof.
  intros H Hlen Hlen0.
  assert (Hadv : ∀ n, 1 ≤ n →
            BlinkerSignal.advance (Some 0) n = Some (1 mod n)).
  { intros n Hn. unfold BlinkerSignal.advance. by rewrite decide_False by lia. }
  split; [|split].
  - unfold cursor. by rewrite (stop_vars b w v H), Hadv.
  - done.
  - unfold BlinkerSignal.new. simpl.
    set (v0 := {| bl_on := on; bl_off := off; bl_time := time;
                  bl_pattern := pattern; bl_timer := None; bl_i := None |}).
    unfold cursor. rewrite (stop_vars _ _ v0).
    + cbn [bl_pattern v0]. by rewrite Hadv.
    + simpl. by rewrite lookup_insert_eq.
Qed.

Lemma stop_leaves_cursor_one_past_start_witness :
  let w := (BlinkerSignal.new "sos-on" "sos-off" 250 " -"
              (boot 0 true [] birdseye)).2 in
  cursor 0 (BlinkerSignal.stop 0 (BlinkerSignal.update 0 w)) = Some (Some 1).
Proof.
  intros w.
  assert (Hv : blinkers (BlinkerSignal.update 0 w) !! 0
               = Some {| bl_on := "sos-on"; bl_off := "sos-off";
                         bl_time := 250; bl_pattern := " -";
                         bl_timer := None; bl_i := Some 0 |})
    by (vm_compute; reflexivity).
  assert (Hlen : 1 ≤ String.length " -") by (vm_compute; lia).
  exact (proj1 (stop_leaves_cursor_one_past_start 0 _ _ "sos-on" "sos-off"
                  250 " -" (boot 0 true [] birdseye) Hv Hlen Hlen)).
Defined.

(** C4 as stated fails on the blinker of the controller: its pattern
    has 34 positions, and the cursor is 1, not 0, after the [stop()]
    of the construction and after a later [stop()]. *)
Lemma stop_does_not_rest_at_zero :
  let w := (BlinkerSignal.new "sos-on" "sos-off" 250 nagios_hawk.pattern
              (boot 0 true [] birdseye)).2 in
  let w' := BlinkerSignal.stop 0
              (BlinkerSignal.update 0 (BlinkerSignal.start 0 w)) in
  1 ≤ String.length nagios_hawk.pattern
  ∧ cursor 0 w = Some (Some 1) ∧ cursor 0 w ≠ Some (Some 0)
  ∧ cursor 0 w' = Some (Some 1) ∧ cursor 0 w' ≠ Some (Some 0).
Proof. vm_compute. repeat split; (lia || discriminate || reflexivity). Qed.

(** C5.  After any number of ticks, [stop()] leaves every target of
    the collection showing the flags of pattern position 0, and a
    second [stop()] right after changes no class list. *)
Theorem stop_shows_first_position (b : ref) (w : World) (v : BlinkerVars)
    (ticks : nat) :
  blinkers w !! b = Some v →
  let w1 := BlinkerSignal.stop b (Nat.iter ticks (BlinkerSignal.update b) w) in
  (∀ e, e ∈ Signal.elements b w1 → shows v 0 (classes e w1))
  ∧ (∀ e, classes e (BlinkerSignal.stop b w1) = classes e w1).
Proof.
  intros H w1.
  destruct (ticks_keep_look b w v ticks H) as (vn & Hvn & Hon & Hoff & Hpat).
  set (wn := Nat.iter ticks (BlinkerSignal.update b) w) in *.
  assert (Hel : Signal.elements b w1 = Signal.elements b wn).
  { unfold Signal.elements, w1. by rewrite stop_targets. }
  pose proof (stop_vars b wn vn Hvn) as Hv1. fold w1 in Hv1.
  split.
  - intros e He. unfold w1. rewrite (stop_classes b wn vn e Hvn).
    rewrite decide_True by (by rewrite <- Hel).
    by apply first_position_shown.
  - intros e. rewrite (stop_classes b w1 _ e Hv1). rewrite Hel.
    case_decide as Hin; [|done].
    unfold w1 at 1 2. rewrite (stop_classes b wn vn e Hvn).
    rewrite decide_True by done.
    apply (repainted_idem (set_bl_i (Some 0) vn)).
Qed.

Lemma stop_shows_first_position_witness :
  let w := Signal.add 0 11
             (BlinkerSignal.new "sos-on" "sos-off" 250 nagios_hawk.pattern
                (boot 0 true [] birdseye)).2 in
  let w1 := BlinkerSignal.stop 0 (Nat.iter 5 (BlinkerSignal.update 0) w) in
  classes 11 w1 = ["sos-off"]
  ∧ 11 ∈ Signal.elements 0 w1
  ∧ shows {| bl_on := "sos-on"; bl_off := "sos-off"; bl_time := 250;
             bl_pattern := nagios_hawk.pattern; bl_timer := None;
             bl_i := Some 1 |} 0 (classes 11 w1)
  ∧ classes 11 (BlinkerSignal.stop 0 w1) = classes 11 w1.
Proof.
  intros w w1.
  assert (Hv : blinkers w !! 0
               = Some {| bl_on := "sos-on"; bl_off := "sos-off";
                         bl_time := 250; bl_pattern := nagios_hawk.pattern;
                         bl_timer := None; bl_i := Some 1 |})
    by (vm_compute; reflexivity).
  assert (Hin : 11 ∈ Signal.elements 0 w1)
    by (vm_compute; apply list_elem_of_here).
  destruct (stop_shows_first_position 0 w _ 5 Hv) as [Hshow Hidem].
  split; [by vm_compute|]. split; [exact Hin|].
  split; [exact (Hshow 11 Hin)|exact (Hidem 11)].
Defined.

(** ** Timers and the [timer] variables *)

Section Schedules.
Implicit Types (w : World) (cb : Callback).

Lemma consistent_frame w w' :
  consistent w →
  intervals w' = intervals w →
  next_interval w' = next_interval w →
  (∀ cb, schedule_of cb w' = schedule_of cb w) →
  consistent w'.
Proof.
  intros [F A O] Hi Hn Hs. split.
  - intros t entry. rewrite Hi, Hn. apply F.
  - intros cb t. rewrite Hi, Hs. apply A.
  - intros t cb p. rewrite Hi, Hs. apply O.
Qed.

(** [timer = setInterval(cb, period)] by an instance that holds no
    interval. *)
Lemma consistent_arm cb period w w' :
  consistent w →
  schedule_of cb w = None →
  intervals w' = <[next_interval w := (cb, period)]> (intervals w) →
  next_interval w' = S (next_interval w) →
  schedule_of cb w' = Some (next_interval w) →
  (∀ cb', cb' ≠ cb → schedule_of cb' w' = schedule_of cb' w) →
  consistent w'.
Proof.
  intros [F A O] Hnone Hi Hn Hs Hother. split.
  - intros t entry. rewrite Hi, Hn, lookup_insert_Some.
    intros [[<- _]|[_ H]]; [lia|]. apply F in H. lia.
  - intros cb' t. destruct (decide (cb' = cb)) as [->|Hne].
    + rewrite Hs. intros [= <-]. exists period.
      rewrite Hi. apply lookup_insert_eq.
    + rewrite (Hother _ Hne). intros H. destruct (A _ _ H) as [p Hp].
      exists p. rewrite Hi, lookup_insert_ne; [done|].
      apply F in Hp. lia.
  - intros t cb' p. rewrite Hi, lookup_insert_Some.
    intros [[<- [= <- <-]]|[Hne H]]; [done|].
    pose proof (O _ _ _ H) as Hs'.
    destruct (decide (cb' = cb)) as [->|Hc]; [congruence|].
    by rewrite Hother.
Qed.

(** [clearInterval(timer); timer = undefined] by the instance that
    holds the interval. *)
Lemma consistent_disarm cb t w w' :
  consistent w →
  schedule_of cb w = Some t →
  intervals w' = delete t (intervals w) →
  next_interval w' = next_interval w →
  schedule_of cb w' = None →
  (∀ cb', cb' ≠ cb → schedule_of cb' w' = schedule_of cb' w) →
  consistent w'.
Proof.
  intros [F A O] Hsome Hi Hn Hs Hother. split.
  - intros t' entry. rewrite Hi, Hn, lookup_delete_Some.
    intros [_ H]. eauto.
  - intros cb' t'. destruct (decide (cb' = cb)) as [->|Hne];
      [by rewrite Hs|].
    rewrite (Hother _ Hne). intros H. destruct (A _ _ H) as [p Hp].
    exists p. rewrite Hi, lookup_delete_ne; [done|].
    intros <-. destruct (A _ _ Hsome) as [p' Hp']. congruence.
  - intros t' cb' p. rewrite Hi, lookup_delete_Some. intros [Hne H].
    pose proof (O _ _ _ H) as Hs'.
    destruct (decide (cb' = cb)) as [->|Hc]; [congruence|].
    by rewrite Hother.
Qed.

(** A consistent world has exactly the interval its [timer] names. *)
Lemma one_schedule cb t w :
  consistent w → schedule_of cb w = Some t →
  ∃ period, active cb w = {[t := (cb, period)]}.
Proof.
  intros [F A O] Hs. destruct (A _ _ Hs) as [p Hp]. exists p.
  apply map_eq. intros t'. unfold active.
  destruct (decide (t' = t)) as [->|Hne].
  - rewrite lookup_singleton_eq. by apply map_lookup_filter_Some.
  - rewrite lookup_singleton_ne by done.
    apply map_lookup_filter_None. right. intros [cb' p'] H' E.
    simpl in E. subst cb'. apply O in H'. congruence.
Qed.

Lemma no_schedule cb w :
  consistent w → schedule_of cb w = None → active cb w = ∅.
Proof.
  intros [F A O] Hs. apply map_eq. intros t. rewrite lookup_empty.
  apply map_lookup_filter_None. right. intros [cb' p'] H' E.
  simpl in E. subst cb'. apply O in H'. congruence.
Qed.
End Schedules.

Section SignalTimers.
Implicit Types (w : World) (cb : Callback) (a b : ref).

Lemma schedule_of_log cb (m : LogEntry) w :
  schedule_of cb (log m w) = schedule_of cb w.
Proof. rewrite log_console. by destruct cb. Qed.

Lemma audio_timer_alter (f : AudioVars → AudioVars) a a'
    (m : gmap ref AudioVars) :
  (∀ v, au_timer (f v) = au_timer v) →
  alter f a m !! a' ≫= au_timer = m !! a' ≫= au_timer.
Proof.
  intros Hf. rewrite lookup_alter. case_decide; [subst|done].
  destruct (m !! a') as [v|]; simpl; [apply Hf|done].
Qed.

Lemma blinker_timer_alter (f : BlinkerVars → BlinkerVars) b b'
    (m : gmap ref BlinkerVars) :
  (∀ v, bl_timer (f v) = bl_timer v) →
  alter f b m !! b' ≫= bl_timer = m !! b' ≫= bl_timer.
Proof.
  intros Hf. rewrite lookup_alter. case_decide; [subst|done].
  destruct (m !! b') as [v|]; simpl; [apply Hf|done].
Qed.

(** *** AudioSignal *)

Lemma play_frame a w :
  intervals (AudioSignal.play a w) = intervals w
  ∧ next_interval (AudioSignal.play a w) = next_interval w
  ∧ ∀ cb, schedule_of cb (AudioSignal.play a w) = schedule_of cb w.
Proof.
  unfold AudioSignal.play. destruct (audios w !! a) as [v|] eqn:H; [|done].
  split; [done|]. split; [done|]. intros [b|a']; simpl; [done|].
  rewrite lookup_insert. case_decide; [subst|done]. by rewrite H.
Qed.

Lemma play_consistent a w :
  consistent w → consistent (AudioSignal.play a w).
Proof.
  intros Hc. destruct (play_frame a w) as (Hi & Hn & Hs).
  by apply (consistent_frame w).
Qed.

Lemma play_vars a w v :
  audios w !! a = Some v →
  ∃ el, audios (AudioSignal.play a w) !! a = Some (set_au_audio el v).
Proof.
  intros H. unfold AudioSignal.play. rewrite H. simpl.
  eexists. apply lookup_insert_eq.
Qed.

Lemma audio_start_armed a w v :
  audios w !! a = Some v →
  ∃ v' t, audios (AudioSignal.start a w) !! a = Some v'
    ∧ au_timer v' = Some t ∧ au_time v' = au_time v.
Proof.
  intros H. unfold AudioSignal.start. rewrite H.
  destruct (au_timer v) as [t|] eqn:Ht; [by exists v, t|].
  simpl. rewrite lookup_alter_eq.
  destruct (play_vars a (log (Message "Hawk: start alarm") w) v) as [el ->].
  { by rewrite log_console. }
  by eexists _, _.
Qed.

Lemma audio_start_again a w :
  AudioSignal.start a (AudioSignal.start a w) = AudioSignal.start a w.
Proof.
  destruct (audios w !! a) as [v|] eqn:H.
  - destruct (audio_start_armed a w v H) as (v' & t & Hv' & Ht & _).
    unfold AudioSignal.start at 1. by rewrite Hv', Ht.
  - unfold AudioSignal.start. by rewrite H, H.
Qed.

Lemma audio_start_consistent a w :
  consistent w → consistent (AudioSignal.start a w).
Proof.
  intros Hc. unfold AudioSignal.start.
  destruct (audios w !! a) as [v|] eqn:H; [|done].
  destruct (au_timer v) as [t|] eqn:Ht; [done|].
  set (w1 := log (Message "Hawk: start alarm") w).
  destruct (play_frame a w1) as (Hi & Hn & Hs).
  assert (Hi1 : intervals w1 = intervals w) by (unfold w1; by rewrite log_console).
  assert (Hn1 : next_interval w1 = next_interval w)
    by (unfold w1; by rewrite log_console).
  apply (consistent_arm (Replay a) (au_time v) w); simpl.
  - done.
  - by rewrite H.
  - by rewrite Hi, Hi1, Hn, Hn1.
  - by rewrite Hn, Hn1.
  - rewrite lookup_alter_eq.
    destruct (play_vars a w1 v) as [el ->]; [|by rewrite Hn, Hn1].
    unfold w1. by rewrite log_console.
  - intros [b|a'] Hne; simpl.
    + specialize (Hs (Update b)). simpl in Hs. rewrite Hs.
      unfold w1. by rewrite log_console.
    + rewrite lookup_alter_ne by congruence.
      specialize (Hs (Replay a')). simpl in Hs. rewrite Hs.
      unfold w1. by rewrite log_console.
Qed.

Lemma audio_stop_consistent a w :
  consistent w → consistent (AudioSignal.stop a w).
Proof.
  intros Hc. unfold AudioSignal.stop.
  destruct (audios w !! a) as [v|] eqn:H; [|done].
  destruct (au_timer v) as [t|] eqn:Ht; [|done].
  rewrite log_console.
  apply (consistent_disarm (Replay a) t w); simpl; try done.
  - by rewrite H.
  - by rewrite lookup_alter_eq, H.
  - intros [b|a'] Hne; simpl; [done|].
    by rewrite lookup_alter_ne by congruence.
Qed.

Lemma audio_stop_disarmed a w :
  schedule_of (Replay a) (AudioSignal.stop a w) = None.
Proof.
  unfold AudioSignal.stop. simpl.
  destruct (audios w !! a) as [v|] eqn:H; [|simpl; by rewrite H].
  destruct (au_timer v) as [t|] eqn:Ht; [|simpl; by rewrite H].
  rewrite log_console. simpl. by rewrite lookup_alter_eq, H.
Qed.

(** *** BlinkerSignal *)

Lemma update_frame b w :
  intervals (BlinkerSignal.update b w) = intervals w
  ∧ next_interval (BlinkerSignal.update b w) = next_interval w
  ∧ ∀ cb, schedule_of cb (BlinkerSignal.update b w) = schedule_of cb w.
Proof.
  destruct (blinkers w !! b) as [v|] eqn:H.
  - rewrite (update_unfold b w v H). simpl. rewrite paint_all_frame. simpl.
    split; [done|]. split; [done|]. intros [b'|a]; simpl; [|done].
    by apply blinker_timer_alter.
  - unfold BlinkerSignal.update. by rewrite H.
Qed.

Lemma update_consistent b w :
  consistent w → consistent (BlinkerSignal.update b w).
Proof.
  intros Hc. destruct (update_frame b w) as (Hi & Hn & Hs).
  by apply (consistent_frame w).
Qed.

Lemma blinker_start_armed b w v :
  blinkers w !! b = Some v →
  ∃ v' t, blinkers (BlinkerSignal.start b w) !! b = Some v'
    ∧ bl_timer v' = Some t.
Proof.
  intros H. unfold BlinkerSignal.start. rewrite H.
  destruct (bl_timer v) as [t|] eqn:Ht; [by exists v, t|].
  rewrite log_console. simpl. rewrite lookup_alter_eq, H.
  by eexists _, _.
Qed.

Lemma blinker_start_again b w :
  BlinkerSignal.start b (BlinkerSignal.start b w) = BlinkerSignal.start b w.
Proof.
  destruct (blinkers w !! b) as [v|] eqn:H.
  - destruct (blinker_start_armed b w v H) as (v' & t & Hv' & Ht).
    unfold BlinkerSignal.start at 1. by rewrite Hv', Ht.
  - unfold BlinkerSignal.start. by rewrite H, H.
Qed.

Lemma blinker_start_consistent b w :
  consistent w → consistent (BlinkerSignal.start b w).
Proof.
  intros Hc. unfold BlinkerSignal.start.
  destruct (blinkers w !! b) as [v|] eqn:H; [|done].
  destruct (bl_timer v) as [t|] eqn:Ht; [done|].
  rewrite log_console.
  apply (consistent_arm (Update b) (bl_time v) w); simpl; try done.
  - by rewrite H.
  - by rewrite lookup_alter_eq, H.
  - intros [b'|a] Hne; simpl; [|done].
    by rewrite lookup_alter_ne by congruence.
Qed.

Lemma blinker_stop_consistent b w :
  consistent w → consistent (BlinkerSignal.stop b w).
Proof.
  intros Hc. unfold BlinkerSignal.stop.
  destruct (blinkers w !! b) as [v|] eqn:H; [|done].
  apply update_consistent.
  destruct (bl_timer v) as [t|] eqn:Ht.
  - rewrite log_console.
    apply (consistent_disarm (Update b) t w); simpl; try done.
    + by rewrite H.
    + by rewrite !lookup_alter_eq, H.
    + intros [b'|a] Hne; simpl; [|done].
      by rewrite !lookup_alter_ne by congruence.
  - apply (consistent_frame w); simpl; try done.
    intros [b'|a]; simpl; [|done]. by apply blinker_timer_alter.
Qed.

Lemma blinker_stop_disarmed b w :
  schedule_of (Update b) (BlinkerSignal.stop b w) = None.
Proof.
  destruct (blinkers w !! b) as [v|] eqn:H.
  - simpl. by rewrite (stop_vars b w v H).
  - unfold BlinkerSignal.stop. rewrite H. simpl. by rewrite H.
Qed.
End SignalTimers.

(** C6.  In a world whose timers are consistent, a second [start()]
    right after the first changes nothing at all, on the audio alarm
    and on the blinker, and exactly one entry of the interval table
    runs the callback of the signal. *)
Theorem start_twice_is_start_once (a b : ref) (w : World)
    (va : AudioVars) (vb : BlinkerVars) :
  consistent w →
  audios w !! a = Some va →
  blinkers w !! b = Some vb →
  let wa := AudioSignal.start a (AudioSignal.start a w) in
  let wb := BlinkerSignal.start b (BlinkerSignal.start b w) in
  wa = AudioSignal.start a w
  ∧ (∃ t period, active (Replay a) wa = {[t := (Replay a, period)]})
  ∧ wb = BlinkerSignal.start b w
  ∧ (∃ t period, active (Update b) wb = {[t := (Update b, period)]}).
Proof.
  intros Hc Ha Hb wa wb. unfold wa, wb.
  rewrite audio_start_again, blinker_start_again.
  split; [done|]. split; [|split; [done|]].
  - destruct (audio_start_armed a w va Ha) as (v' & t & Hv' & Ht & _).
    exists t. apply one_schedule; [by apply audio_start_consistent|].
    simpl. by rewrite Hv'.
  - destruct (blinker_start_armed b w vb Hb) as (v' & t & Hv' & Ht).
    exists t. apply one_schedule; [by apply blinker_start_consistent|].
    simpl. by rewrite Hv'.
Qed.



(** C10.  [stop()] of the alarm cancels the interval named by [timer]
    and clears [timer].  No audio element changes (none is paused or
    rewound), no playback is asked for, and no other part of the world
    changes but the console. *)
Theorem audio_stop_leaves_audio_alone (a : ref) (w : World) :
  let w' := AudioSignal.stop a w in
  (∀ a', au_audio <$> audios w' !! a' = au_audio <$> audios w !! a')
  ∧ (∀ a', au_time <$> audios w' !! a' = au_time <$> audios w !! a')
  ∧ (∀ a', a' ≠ a → audios w' !! a' = audios w !! a')
  ∧ schedule_of (Replay a) w' = None
  ∧ intervals w'
    = match schedule_of (Replay a) w with
      | Some t => delete t (intervals w)
      | None => intervals w
      end
  ∧ play_outcomes w' = play_outcomes w
  ∧ next_interval w' = next_interval w
  ∧ classList w' = classList w ∧ click w' = click w
  ∧ observers w' = observers w ∧ frame w' = frame w
  ∧ targets w' = targets w ∧ blinkers w' = blinkers w
  ∧ hawkeyes w' = hawkeyes w ∧ next_ref w' = next_ref w
  ∧ now w' = now w ∧ quiet w' = quiet w.
Proof.
  intros w'. split_and!; try apply audio_stop_disarmed; unfold w';
    unfold AudioSignal.stop; simpl;
    destruct (audios w !! a) as [v|] eqn:H; simpl; try done;
    destruct (au_timer v) as [t|] eqn:Ht; simpl; try done;
    rewrite ?log_console; simpl; try done.
  - intros a'. rewrite lookup_alter. case_decide; [subst|done].
    by rewrite H.
  - intros a'. rewrite lookup_alter. case_decide; [subst|done].
    by rewrite H.
  - intros a' Hne. by rewrite lookup_alter_ne.
Qed.

(** ** Composed signals come down to their leaves *)

Lemma SignalRef_nested_ind (P : SignalRef → Prop) :
  (∀ b, P (Blinker b)) →
  (∀ a, P (Audio a)) →
  (∀ c l, Forall P l → P (Composed c l)) →
  ∀ s, P s.
Proof.
  intros HB HA HC. fix IH 1. intros [b|a|c l]; [apply HB|apply HA|].
  apply HC. induction l as [|s l IHl]; constructor; [apply IH|apply IHl].
Qed.

Section Leaves.
Implicit Types (s : SignalRef) (w : World) (cb : Callback).

Lemma object_start s w :
  Controls.start (object s) w
  = Normal (foldl (λ w cb, leaf_start cb w) w (tickers s)).
Proof.
  revert w. induction s as [b|a|c l IH] using SignalRef_nested_ind;
    intros w; [done|done|].
  simpl. unfold ComposeSignal.start. revert w.
  induction IH as [|s l Hs _ IHl]; intros w; simpl; [done|].
  rewrite Hs. simpl. rewrite IHl. by rewrite foldl_app.
Qed.

Lemma object_stop s w :
  Controls.stop (object s) w
  = Normal (foldl (λ w cb, leaf_stop cb w) w (tickers s)).
Proof.
  revert w. induction s as [b|a|c l IH] using SignalRef_nested_ind;
    intros w; [done|done|].
  simpl. unfold ComposeSignal.stop. revert w.
  induction IH as [|s l Hs _ IHl]; intros w; simpl; [done|].
  rewrite Hs. simpl. rewrite IHl. by rewrite foldl_app.
Qed.

Lemma object_add s (element : Elem) w :
  Controls.add (object s) element w
  = Normal (foldl (λ w cb, Signal.add (holder cb) element w) w (tickers s)).
Proof.
  revert w. induction s as [b|a|c l IH] using SignalRef_nested_ind;
    intros w; [done|done|].
  simpl. unfold ComposeSignal.add. revert w.
  induction IH as [|s l Hs _ IHl]; intros w; simpl; [done|].
  rewrite Hs. simpl. rewrite IHl. by rewrite foldl_app.
Qed.

Lemma object_empty s w :
  Controls.empty (object s) w
  = Normal (foldl (λ w cb, Signal.empty (holder cb) w) w (tickers s)).
Proof.
  revert w. induction s as [b|a|c l IH] using SignalRef_nested_ind;
    intros w; [done|done|].
  simpl. unfold ComposeSignal.empty. revert w.
  induction IH as [|s l Hs _ IHl]; intros w; simpl; [done|].
  rewrite Hs. simpl. rewrite IHl. by rewrite foldl_app.
Qed.
End Leaves.

(** ** What signal activity leaves alone *)

Section Frames.
Implicit Types (w : World) (cb : Callback) (a b r : ref).

Lemma signal_only_refl w : signal_only w w.
Proof. by split. Qed.

Lemma signal_only_trans w1 w2 w3 :
  signal_only w1 w2 → signal_only w2 w3 → signal_only w1 w3.
Proof. intros [] []. split; congruence. Qed.

Lemma fold_signal_only {A : Type} (f : A → World → World) (l : list A) w :
  (∀ x w, signal_only w (f x w)) →
  signal_only w (foldl (λ w x, f x w) w l).
Proof.
  intros Hf. revert w. induction l as [|x l IH]; intros w; simpl.
  - apply signal_only_refl.
  - eapply signal_only_trans; [apply Hf|apply IH].
Qed.

Lemma fold_preserves {A : Type} (P : World → Prop) (f : A → World → World)
    (l : list A) w :
  (∀ x w, P w → P (f x w)) → P w → P (foldl (λ w x, f x w) w l).
Proof.
  intros Hf. revert w. induction l as [|x l IH]; intros w; simpl; [done|].
  intros Hw. apply IH. by apply Hf.
Qed.

Lemma update_signal_only b w : signal_only w (BlinkerSignal.update b w).
Proof.
  destruct (blinkers w !! b) as [v|] eqn:H.
  - rewrite (update_unfold b w v H), paint_all_frame.
    split; simpl; try done. by rewrite dom_alter_L.
  - unfold BlinkerSignal.update. rewrite H. apply signal_only_refl.
Qed.

Lemma blinker_start_signal_only b w :
  signal_only w (BlinkerSignal.start b w).
Proof.
  unfold BlinkerSignal.start.
  destruct (blinkers w !! b) as [v|]; [|apply signal_only_refl].
  destruct (bl_timer v); [apply signal_only_refl|].
  rewrite log_console. split; simpl; try done. by rewrite dom_alter_L.
Qed.

Lemma blinker_stop_signal_only b w :
  signal_only w (BlinkerSignal.stop b w).
Proof.
  unfold BlinkerSignal.stop.
  destruct (blinkers w !! b) as [v|]; [|apply signal_only_refl].
  eapply signal_only_trans; [|apply update_signal_only].
  destruct (bl_timer v).
  - rewrite log_console. split; simpl; try done. by rewrite !dom_alter_L.
  - split; simpl; try done. by rewrite dom_alter_L.
Qed.

Lemma play_signal_only a w : signal_only w (AudioSignal.play a w).
Proof.
  unfold AudioSignal.play.
  destruct (audios w !! a) as [v|] eqn:H; [|apply signal_only_refl].
  split; simpl; try done. apply dom_insert_lookup_L. by rewrite H.
Qed.

Lemma audio_start_signal_only a w : signal_only w (AudioSignal.start a w).
Proof.
  unfold AudioSignal.start.
  destruct (audios w !! a) as [v|]; [|apply signal_only_refl].
  destruct (au_timer v); [apply signal_only_refl|].
  set (w1 := log (Message "Hawk: start alarm") w).
  assert (H1 : signal_only w w1).
  { unfold w1. rewrite log_console. by split. }
  pose proof (play_signal_only a w1) as H2.
  destruct (signal_only_trans _ _ _ H1 H2).
  split; simpl; try done. by rewrite dom_alter_L.
Qed.

Lemma audio_stop_signal_only a w : signal_only w (AudioSignal.stop a w).
Proof.
  unfold AudioSignal.stop.
  destruct (audios w !! a) as [v|]; [|apply signal_only_refl].
  destruct (au_timer v); [|apply signal_only_refl].
  rewrite log_console. split; simpl; try done. by rewrite dom_alter_L.
Qed.

Lemma leaf_start_signal_only cb w : signal_only w (leaf_start cb w).
Proof.
  destruct cb; [apply blinker_start_signal_only|apply audio_start_signal_only].
Qed.

Lemma leaf_stop_signal_only cb w : signal_only w (leaf_stop cb w).
Proof.
  destruct cb; [apply blinker_stop_signal_only|apply audio_stop_signal_only].
Qed.

Lemma leaf_start_consistent cb w :
  consistent w → consistent (leaf_start cb w).
Proof.
  destruct cb; [apply blinker_start_consistent|apply audio_start_consistent].
Qed.

Lemma leaf_stop_consistent cb w :
  consistent w → consistent (leaf_stop cb w).
Proof.
  destruct cb; [apply blinker_stop_consistent|apply audio_stop_consistent].
Qed.

Lemma fire_consistent (t : nat) w : consistent w → consistent (fire t w).
Proof.
  intros Hc. unfold fire. destruct (intervals w !! t) as [[[b|a] p]|];
    [by apply update_consistent|by apply play_consistent|done].
Qed.

(** [stop()] never arms a timer. *)
Lemma leaf_stop_disarms cb w : schedule_of cb (leaf_stop cb w) = None.
Proof.
  destruct cb; [apply blinker_stop_disarmed|apply audio_stop_disarmed].
Qed.

Lemma leaf_stop_other cb cb' w :
  cb ≠ cb' → schedule_of cb (leaf_stop cb' w) = schedule_of cb w.
Proof.
  intros Hne. destruct cb' as [b'|a']; simpl.
  - unfold BlinkerSignal.stop.
    destruct (blinkers w !! b') as [v|] eqn:H; [|done].
    destruct (update_frame b'
      (set_blinkers (alter (set_bl_i (Some 0)) b')
         match bl_timer v with
         | Some t =>
             set_blinkers (alter (set_bl_timer None) b')
               (clearInterval t (log (Message "Hawk: stop blinker") w))
         | None => w
         end)) as (_ & _ & ->).
    destruct cb as [b|a]; simpl.
    + rewrite lookup_alter_ne by congruence.
      destruct (bl_timer v); [|done].
      rewrite log_console. simpl. by rewrite lookup_alter_ne by congruence.
    + destruct (bl_timer v); [|done]. by rewrite log_console.
  - unfold AudioSignal.stop.
    destruct (audios w !! a') as [v|] eqn:H; [|done].
    destruct (au_timer v); [|done]. rewrite log_console.
    destruct cb as [b|a]; simpl; [done|].
    by rewrite lookup_alter_ne by congruence.
Qed.

Lemma leaf_stop_keeps_disarmed cb cb' w :
  schedule_of cb w = None → schedule_of cb (leaf_stop cb' w) = None.
Proof.
  intros H. destruct (decide (cb = cb')) as [->|Hne].
  - apply leaf_stop_disarms.
  - by rewrite leaf_stop_other.
Qed.

Lemma stop_all_disarms (l : list Callback) cb w :
  cb ∈ l ∨ schedule_of cb w = None →
  schedule_of cb (foldl (λ w cb, leaf_stop cb w) w l) = None.
Proof.
  revert w. induction l as [|cb' l IH]; intros w; simpl.
  - intros [H|H]; [by apply elem_of_nil in H|done].
  - intros [H|H]; apply IH.
    + apply elem_of_cons in H as [->|H]; [right; apply leaf_stop_disarms|by left].
    + right. by apply leaf_stop_keeps_disarmed.
Qed.

(** *** Target collections *)

Lemma add_all_frame (element : Elem) (l : list Callback) w :
  foldl (λ w cb, Signal.add (holder cb) element w) w l
  = set_targets
      (λ _, targets (foldl (λ w cb, Signal.add (holder cb) element w) w l)) w.
Proof.
  revert w. induction l as [|cb l IH]; intros w; simpl.
  - by destruct w.
  - by rewrite IH at 1.
Qed.


End Frames.

(** ** The watcher *)

Section Watcher.
Implicit Types (w : World) (s : SignalRef) (e n : Elem) (h : ref).






Lemma disconnect_unfold h w v :
  hawkeyes w !! h = Some v →
  Hawkeye.disconnect h w
  = Normal
      (foldl (λ w cb, Signal.empty (holder cb) w)
         (foldl (λ w cb, leaf_stop cb w)
            (foldl (λ w e, removeEventListener e (hk_signal v) w)
               (removeEventListener (hk_source v) (hk_signal v)
                  (unobserve h (log (Message "Hawk: stop observing") w)))
               (hk_targets v))
            (tickers (hk_signal v)))
         (tickers (hk_signal v))).
Proof.
  intros H. unfold Hawkeye.disconnect. rewrite H, forEach_total. simpl.
  rewrite object_stop. simpl. by rewrite object_empty.
Qed.

End Watcher.


(** ** Every run keeps the world sound *)

Section Soundness.
Implicit Types (w : World) (cb : Callback) (s : SignalRef) (h : ref).

Lemma wiring_only_refl w : wiring_only w w.
Proof. by split. Qed.

Lemma wiring_only_trans w1 w2 w3 :
  wiring_only w1 w2 → wiring_only w2 w3 → wiring_only w1 w3.
Proof. intros [] []. split; congruence. Qed.

Lemma consistent_wiring_only w w' :
  consistent w → wiring_only w w' → consistent w'.
Proof.
  intros Hc []. apply (consistent_frame w); try done.
  intros [b|a]; simpl; congruence.
Qed.

Lemma allotted_wiring_only w w' :
  allotted w → wiring_only w w' → allotted w'.
Proof.
  intros [B A H] []. split; intros r Hr; [rewrite wired_blinkers0
    |rewrite wired_audios0|rewrite wired_hawkeyes0]; eauto with lia.
Qed.

Lemma sound_wiring_only w w' : sound w → wiring_only w w' → sound w'.
Proof.
  intros [Hc Ha] Hw. split;
    [by apply (consistent_wiring_only w)|by apply (allotted_wiring_only w)].
Qed.

Lemma allotted_signal_only w w' :
  allotted w → signal_only w w' → allotted w'.
Proof.
  intros [B A H] []. split; intros r Hr; rewrite same_next_ref0 in Hr.
  - apply not_elem_of_dom. rewrite same_blinkers0.
    apply not_elem_of_dom. by apply B.
  - apply not_elem_of_dom. rewrite same_audios0.
    apply not_elem_of_dom. by apply A.
  - rewrite same_hawkeyes0. by apply H.
Qed.

Lemma log_wiring_only (m : LogEntry) w : wiring_only w (log m w).
Proof. rewrite log_console. by split. Qed.

Lemma log_all_wiring_only (ms : list LogEntry) w :
  wiring_only w (foldl (λ w m, log m w) w ms).
Proof.
  revert w. induction ms as [|m ms IH]; intros w; simpl.
  - apply wiring_only_refl.
  - eapply wiring_only_trans; [apply log_wiring_only|apply IH].
Qed.

Lemma logGroup_wiring_only (title : string) (ms : list LogEntry) w :
  wiring_only w (logGroup title ms w).
Proof.
  unfold logGroup. destruct (quiet w); [apply wiring_only_refl|].
  set (w1 := set_console (λ c, c ++ [Group title]) w).
  apply (wiring_only_trans w w1); [by split|].
  apply (wiring_only_trans w1 (foldl (λ w m, log m w) w1 ms));
    [apply log_all_wiring_only|by split].
Qed.

Lemma boot_sound (clock : Z) (silent : bool) (l : list bool)
    (doc : Document) :
  sound (boot clock silent l doc).
Proof.
  split; split; simpl.
  - intros t entry. by rewrite lookup_empty.
  - intros [b|a] t; simpl; by rewrite lookup_empty.
  - intros t cb p. by rewrite lookup_empty.
  - intros. apply lookup_empty.
  - intros. apply lookup_empty.
  - intros. apply lookup_empty.
Qed.

Lemma leaf_start_sound cb w : sound w → sound (leaf_start cb w).
Proof.
  intros [Hc Ha]. split; [by apply leaf_start_consistent|].
  eapply allotted_signal_only; [done|apply leaf_start_signal_only].
Qed.

Lemma leaf_stop_sound cb w : sound w → sound (leaf_stop cb w).
Proof.
  intros [Hc Ha]. split; [by apply leaf_stop_consistent|].
  eapply allotted_signal_only; [done|apply leaf_stop_signal_only].
Qed.

Lemma fire_sound (t : nat) w : sound w → sound (fire t w).
Proof.
  intros [Hc Ha]. split; [by apply fire_consistent|].
  eapply allotted_signal_only; [done|]. unfold fire.
  destruct (intervals w !! t) as [[[b|a] p]|];
    [apply update_signal_only|apply play_signal_only|apply signal_only_refl].
Qed.

(** *** Constructors *)

Lemma audio_new_sound (uri : string) (time : Z) w :
  sound w → sound (AudioSignal.new uri time w).2.
Proof.
  intros [Hc [B A H]]. unfold AudioSignal.new. simpl. split.
  - apply (consistent_frame w); simpl; try done.
    intros [b|a]; simpl; [done|].
    rewrite lookup_insert. case_decide; [subst|done].
    simpl. by rewrite A.
  - split; simpl; intros r Hr.
    + apply B. lia.
    + rewrite lookup_insert_ne by lia. apply A. lia.
    + apply H. lia.
Qed.

Lemma blinker_new_sound (on off : string) (time : Z) (pattern : string) w :
  sound w → sound (BlinkerSignal.new on off time pattern w).2.
Proof.
  intros [Hc [B A H]]. unfold BlinkerSignal.new. simpl.
  apply (leaf_stop_sound (Update (next_ref w))). split.
  - apply (consistent_frame w); simpl; try done.
    intros [b|a]; simpl; [|done].
    rewrite lookup_insert. case_decide; [subst|done].
    simpl. by rewrite B.
  - split; simpl; intros r Hr.
    + rewrite lookup_insert_ne by lia. apply B. lia.
    + apply A. lia.
    + apply H. lia.
Qed.

Lemma compose_new_sound (signals : list SignalRef) w :
  sound w → sound (ComposeSignal_new signals w).2.
Proof.
  intros [Hc [B A H]]. split.
  - by apply (consistent_frame w).
  - split; simpl; intros r Hr; [apply B|apply A|apply H]; lia.
Qed.

Lemma hawkeye_new_sound (source : Elem) (targets : list Elem) s w :
  sound w → sound (Hawkeye.new source targets s w).2.
Proof.
  intros Hs.
  destruct (sound_wiring_only w _ Hs (log_wiring_only (Message "Hawk: looking") w))
    as [Hc [B A H]].
  unfold Hawkeye.new. simpl. split.
  - by apply (consistent_frame (log (Message "Hawk: looking") w)).
  - split; simpl; intros r Hr.
    + apply B. lia.
    + apply A. lia.
    + rewrite lookup_insert_ne by lia. apply H. lia.
Qed.

Lemma nagios_hawk_new_sound w : sound w → sound (nagios_hawk.new w).2.
Proof.
  intros Hs. unfold nagios_hawk.new.
  pose proof (sound_wiring_only w _ Hs
                (log_wiring_only (Message "Hawk: start") w)) as H0.
  pose proof (blinker_new_sound "sos-on" "sos-off" 250 nagios_hawk.pattern
                _ H0) as H1.
  destruct (BlinkerSignal.new _ _ _ _ _) as [sos w1]. simpl in H1.
  pose proof (audio_new_sound nagios_hawk.bell 30000 _ H1) as H2.
  destruct (AudioSignal.new _ _ _) as [alarm w2]. simpl in H2.
  pose proof (compose_new_sound [sos; alarm] _ H2) as H3.
  by destruct (ComposeSignal_new _ _) as [signal w3].
Qed.

(** *** Wiring *)

Lemma forEach_ext {S A : Type} (f g : A → S → Completion S) (l : list A)
    (x : S) :
  (∀ y x, f y x = g y x) → forEach f l x = forEach g l x.
Proof.
  intros H. revert x. induction l as [|y l IH]; intros x; simpl; [done|].
  rewrite H. destruct (g y x); simpl; [apply IH|done].
Qed.

Lemma observe_wiring_only h (n : Elem) w : wiring_only w (observe h n w).
Proof. unfold observe. case_decide; by split. Qed.

Lemma unobserve_wiring_only h w : wiring_only w (unobserve h w).
Proof. by split. Qed.

Lemma addEventListener_wiring_only (e : Elem) s w :
  wiring_only w (addEventListener e s w).
Proof. unfold addEventListener. case_decide; by split. Qed.

Lemma removeEventListener_wiring_only (e : Elem) s w :
  wiring_only w (removeEventListener e s w).
Proof. by split. Qed.

Lemma add_wiring_only (r : ref) (e : Elem) w :
  wiring_only w (Signal.add r e w).
Proof. by split. Qed.

Lemma empty_wiring_only (r : ref) w : wiring_only w (Signal.empty r w).
Proof. by split. Qed.

Lemma fold_wiring_only {A : Type} (f : A → World → World) (l : list A) w :
  (∀ x w, wiring_only w (f x w)) →
  wiring_only w (foldl (λ w x, f x w) w l).
Proof.
  intros Hf. revert w. induction l as [|x l IH]; intros w; simpl.
  - apply wiring_only_refl.
  - eapply wiring_only_trans; [apply Hf|apply IH].
Qed.

Lemma connect_unfold h w v :
  hawkeyes w !! h = Some v →
  Hawkeye.connect h w
  = Normal
      (foldl
         (λ w elem,
            addEventListener elem (hk_signal v)
              (foldl (λ w cb, Signal.add (holder cb) elem w) w
                 (tickers (hk_signal v))))
         (addEventListener (hk_source v) (hk_signal v)
            (observe h (hk_source v)
               (log (Message "Hawk: start observing") w)))
         (hk_targets v)).
Proof.
  intros H. unfold Hawkeye.connect. rewrite H.
  rewrite <- (forEach_total
    (λ elem w, addEventListener elem (hk_signal v)
                 (foldl (λ w cb, Signal.add (holder cb) elem w) w
                    (tickers (hk_signal v))))).
  apply forEach_ext. intros e w'. by rewrite object_add.
Qed.

(** [connect()] returns, and writes the wiring only. *)
Lemma connect_wiring_only h w :
  ∃ w', Hawkeye.connect h w = Normal w' ∧ wiring_only w w'.
Proof.
  destruct (hawkeyes w !! h) as [v|] eqn:H.
  - eexists. split; [by apply connect_unfold|].
    eapply wiring_only_trans; [apply log_wiring_only|].
    eapply wiring_only_trans; [apply observe_wiring_only|].
    eapply wiring_only_trans; [apply addEventListener_wiring_only|].
    apply (fold_wiring_only
      (λ elem w, addEventListener elem (hk_signal v)
                   (foldl (λ w cb, Signal.add (holder cb) elem w) w
                      (tickers (hk_signal v))))).
    intros e w'.
    eapply wiring_only_trans; [|apply addEventListener_wiring_only].
    apply (fold_wiring_only (λ cb w, Signal.add (holder cb) e w)).
    intros cb w''. apply add_wiring_only.
  - exists w. unfold Hawkeye.connect. rewrite H.
    split; [done|apply wiring_only_refl].
Qed.

Lemma disconnect_sound h w :
  sound w →
  ∃ w', Hawkeye.disconnect h w = Normal w' ∧ sound w'.
Proof.
  intros Hs. destruct (hawkeyes w !! h) as [v|] eqn:H.
  - eexists. split; [by apply disconnect_unfold|].
    eapply sound_wiring_only;
      [|apply (fold_wiring_only (λ cb w, Signal.empty (holder cb) w));
        intros cb w'; apply empty_wiring_only].
    apply (fold_preserves sound leaf_stop); [apply leaf_stop_sound|].
    eapply sound_wiring_only; [exact Hs|].
    eapply wiring_only_trans; [apply log_wiring_only|].
    eapply wiring_only_trans; [apply unobserve_wiring_only|].
    eapply wiring_only_trans; [apply removeEventListener_wiring_only|].
    apply (fold_wiring_only (λ e w, removeEventListener e (hk_signal v) w)).
    intros e w'. apply removeEventListener_wiring_only.
  - exists w. unfold Hawkeye.disconnect. by rewrite H.
Qed.

Lemma debounce_sound h (g : Debounce) w :
  sound w → sound (set_hawkeyes (alter (set_hk_debounce g) h) w).
Proof.
  intros [Hc [B A H]]. split.
  - by apply (consistent_frame w).
  - split; simpl; intros r Hr; [by apply B|by apply A|].
    rewrite lookup_alter_None. by apply H.
Qed.

Lemma callback_sound h w :
  sound w → sound (settled (Hawkeye.callback h w)).
Proof.
  intros Hs. unfold Hawkeye.callback.
  destruct (hawkeyes w !! h) as [v|]; [|done].
  unfold Hawkeye.wrapped.
  assert (H1 : ∀ w1, sound w1 →
            sound (foldl (λ w cb, leaf_start cb w) w1
                     (tickers (hk_signal v)))).
  { intros w1. apply (fold_preserves sound leaf_start), leaf_start_sound. }
  pose proof (sound_wiring_only w _ Hs (log_wiring_only
    (Message "Hawk: drop too early first change event") w)) as H2.
  destruct (hk_debounce v) as [[] [] m];
    case_bool_decide; simpl; rewrite ?object_start; simpl;
    apply debounce_sound; auto.
Qed.

Lemma mutated_sound (n : Elem) w : sound w → sound (mutated n w).
Proof.
  apply (fold_preserves sound (λ o w, settled (Hawkeye.callback o w))).
  intros o w'. apply callback_sound.
Qed.

Lemma clicked_sound (e : Elem) w : sound w → sound (clicked e w).
Proof.
  apply (fold_preserves sound
           (λ l w, settled (Controls.stop (object l) w))).
  intros l w' Hs. rewrite object_stop. simpl.
  apply (fold_preserves sound leaf_stop); [apply leaf_stop_sound|done].
Qed.

(** *** The controller *)

Lemma attack_sound (c : HawkVars) w :
  sound w → sound (settled (nagios_hawk.attack c w).2).
Proof.
  intros Hs. unfold nagios_hawk.attack.
  set (w2 := inject_style _ (log (Message "Hawk: attack") w)).
  set (w3 := logGroup _ _ w2).
  assert (H3 : sound w3).
  { eapply sound_wiring_only; [|apply logGroup_wiring_only].
    destruct (sound_wiring_only w _ Hs
                (log_wiring_only (Message "Hawk: attack") w))
      as [Hc [B A H]].
    split; [by apply (consistent_frame (log (Message "Hawk: attack") w))|].
    by split. }
  pose proof (hawkeye_new_sound (be_hosts (frame w2)) [be_dash (frame w2)]
                (signal c) w3 H3) as H4.
  destruct (Hawkeye.new _ _ _ w3) as [h w4]. simpl in *.
  destruct (connect_wiring_only h w4) as (w5 & -> & H5). simpl.
  by apply (sound_wiring_only w4).
Qed.

Lemma rest_sound (c : HawkVars) w :
  sound w → sound (settled (nagios_hawk.rest c w).2).
Proof.
  intros Hs. unfold nagios_hawk.rest.
  pose proof (sound_wiring_only w _ Hs
                (log_wiring_only (Message "Hawk: rest") w)) as H1.
  destruct (observer c) as [h|]; simpl; [|done].
  by destruct (disconnect_sound h _ H1) as (w' & -> & H2).
Qed.

Lemma wake_sound (c : HawkVars) w :
  sound w → sound (settled (nagios_hawk.wake c w).2).
Proof.
  intros Hs. unfold nagios_hawk.wake, nagios_hawk.is_birdseye.
  pose proof (sound_wiring_only w _ Hs
                (log_wiring_only (Message "Hawk: wake") w)) as H1.
  destruct (endsWith _ _);
    [apply attack_sound|apply rest_sound];
    (eapply sound_wiring_only; [exact H1|apply log_wiring_only]).
Qed.

Lemma step_sound (ev : Event) (st : HawkVars * World) :
  sound st.2 → sound (step ev st).2.
Proof.
  intros Hs. destruct ev; simpl.
  - apply wake_sound. destruct Hs as [Hc [B A H]].
    split; [by apply (consistent_frame st.2)|by split].
  - by apply attack_sound.
  - by apply rest_sound.
  - by apply wake_sound.
  - by apply fire_sound.
  - by apply clicked_sound.
  - by apply mutated_sound.
  - destruct Hs as [Hc [B A H]].
    split; [by apply (consistent_frame st.2)|by split].
  - destruct Hs as [Hc [B A H]].
    split; [by apply (consistent_frame st.2)|by split].
  - destruct Hs as [Hc [B A H]].
    split; [by apply (consistent_frame st.2)|by split].
Qed.

(** Timers and [timer] variables agree, and objects are named in
    order, in every world the page can reach. *)
Lemma run_sound (evs : list Event) (st : HawkVars * World) :
  sound st.2 → sound (run evs st).2.
Proof.
  revert st. induction evs as [|ev evs IH]; intros st Hs; simpl; [done|].
  apply IH. by apply step_sound.
Qed.

Lemma page_sound (clock : Z) (silent : bool) (l : list bool)
    (doc : Document) (evs : list Event) :
  sound (run evs (nagios_hawk.new (boot clock silent l doc))).2.
Proof. apply run_sound, nagios_hawk_new_sound, boot_sound. Qed.
End Soundness.

(** ** The controller's signals *)

(** C3 (as the code has it).  [attack()] builds one new object, the
    watcher: it is bound to the anchors of the document now in the
    frame, its debounce state is fresh, and it is handed the
    controller's one composed signal.  No blinker and no alarm is
    constructed, and the variables of the existing ones are untouched:
    the signals are those [nagios_hawk] built when it was called. *)
Theorem attack_builds_watcher_only (c : HawkVars) (w : World) :
  allotted w →
  let h := next_ref w in
  ∃ w', (nagios_hawk.attack c w).2 = Normal w'
    ∧ (nagios_hawk.attack c w).1 = set_observer (Some h) c
    ∧ hawkeyes w !! h = None
    ∧ hawkeyes w'
      = <[h := {| hk_source := be_hosts (frame w);
                  hk_targets := [be_dash (frame w)];
                  hk_signal := signal c;
                  hk_debounce := {| first := true; early := true;
                                mark := now w |} |}]> (hawkeyes w)
    ∧ blinkers w' = blinkers w
    ∧ audios w' = audios w
    ∧ next_ref w' = S h.
Proof.
  intros [B A H] h. unfold nagios_hawk.attack.
  set (w1 := log (Message "Hawk: attack") w).
  set (w2 := inject_style _ w1).
  set (w3 := logGroup _ _ w2).
  assert (H1 : wiring_only w w1) by apply log_wiring_only.
  assert (H3 : wiring_only w2 w3) by apply logGroup_wiring_only.
  set (w3' := log (Message "Hawk: looking") w3).
  assert (H3' : wiring_only w3 w3') by apply log_wiring_only.
  unfold Hawkeye.new. cbn [fst snd]. fold w3'.
  set (w4 := set_next_ref S _).
  destruct (connect_wiring_only (next_ref w3') w4) as (w5 & E & H5).
  exists w5. split; [exact E|].
  assert (Hh : next_ref w3' = h).
  { rewrite (wired_next_ref _ _ H3'), (wired_next_ref _ _ H3).
    unfold w2. simpl. apply (wired_next_ref _ _ H1). }
  rewrite Hh. split; [done|]. split; [by apply H|].
  split; [|split; [|split]].
  - rewrite (wired_hawkeyes _ _ H5). unfold w4. simpl.
    rewrite Hh, (wired_hawkeyes _ _ H3'), (wired_hawkeyes _ _ H3).
    unfold Hawkeye.ignore_too_early_call.
    rewrite (wired_now _ _ H3'), (wired_now _ _ H3), (wired_frame _ _ H1).
    unfold w2. simpl.
    by rewrite (wired_hawkeyes _ _ H1), (wired_now _ _ H1).
  - rewrite (wired_blinkers _ _ H5). unfold w4. simpl.
    rewrite (wired_blinkers _ _ H3'), (wired_blinkers _ _ H3).
    unfold w2. simpl. apply (wired_blinkers _ _ H1).
  - rewrite (wired_audios _ _ H5). unfold w4. simpl.
    rewrite (wired_audios _ _ H3'), (wired_audios _ _ H3).
    unfold w2. simpl. apply (wired_audios _ _ H1).
  - rewrite (wired_next_ref _ _ H5). unfold w4. simpl. by rewrite Hh.
Qed.

Lemma attack_builds_watcher_only_witness :
  ∃ w', (nagios_hawk.attack page.1 page.2).2 = Normal w'
    ∧ observer (nagios_hawk.attack page.1 page.2).1 = Some 3
    ∧ blinkers w' = blinkers page.2
    ∧ audios w' = audios page.2.
Proof.
  destruct (attack_builds_watcher_only page.1 page.2
              (proj2 (page_sound 0 true [] birdseye [])))
    as (w' & E & Hc & _ & _ & Hb & Ha & _).
  exists w'. split; [exact E|]. split; [by rewrite Hc|]. by split.
Defined.

(** C3 as stated fails.  The frame loads the birdseye page, then
    loads it again: the two [attack()] calls build the watchers 3 and
    4, and both hold the signal object 2 made of the blinker 0 and the
    alarm 1.  No other blinker or alarm exists, and the one blinker
    has collected the targets of both documents. *)
Lemma attacks_share_the_signal :
  let st1 := step (Load birdseye) page in
  let st2 := step (Load reloaded) st1 in
  (observer st1.1 = Some 3 ∧ observer st2.1 = Some 4)
  ∧ (hk_signal <$> (hawkeyes st2.2 !! 3)
     = Some (Composed 2 [Blinker 0; Audio 1]))
  ∧ (hk_signal <$> (hawkeyes st2.2 !! 4)
     = Some (Composed 2 [Blinker 0; Audio 1]))
  ∧ (signal st1.1 = signal st2.1)
  ∧ (dom (blinkers st2.2) = {[0]})
  ∧ (dom (audios st2.2) = {[1]})
  ∧ (Signal.elements 0 st2.2 = [11; 21]).
Proof. vm_compute. repeat split; reflexivity. Qed.

Lemma start_twice_is_start_once_witness :
  let wa := AudioSignal.start 1 (AudioSignal.start 1 page.2) in
  let wb := BlinkerSignal.start 0 (BlinkerSignal.start 0 page.2) in
  wa = AudioSignal.start 1 page.2
  ∧ (∃ t period, active (Replay 1) wa = {[t := (Replay 1, period)]})
  ∧ wb = BlinkerSignal.start 0 page.2
  ∧ (∃ t period, active (Update 0) wb = {[t := (Update 0, period)]}).
Proof.
  apply (start_twice_is_start_once 1 0 page.2
           {| au_time := 30000; au_timer := None;
              au_audio := {| src := nagios_hawk.bell; paused := true;
                             played := [] |} |}
           {| bl_on := "sos-on"; bl_off := "sos-off"; bl_time := 250;
              bl_pattern := nagios_hawk.pattern; bl_timer := None;
              bl_i := Some 1 |}).
  - exact (proj1 (page_sound 0 true [] birdseye [])).
  - vm_compute. reflexivity.
  - vm_compute. reflexivity.
Defined.


(** Were the callback of a disconnected watcher called all the same,
    it would start the signal again: what keeps a disconnected watcher
    silent is the observer's disconnection, not the debounce filter. *)
Remark stale_callback_would_rearm :
  let w := (run [Attack; ChildList 10] page).2 in
  let w' := settled (Hawkeye.disconnect 3 w) in
  let w'' := settled (Hawkeye.callback 3 w') in
  intervals w' = ∅ ∧ dom (intervals w'') = {[1; 2]}.
Proof. vm_compute. split; reflexivity. Qed.

(** A second [attack()] on the same document leaves two watchers on
    the one source, sharing the one signal; [rest()] disconnects the
    later one only, and the next change reaches the earlier one, which
    starts the signal. *)
Remark earlier_watcher_keeps_listening :
  let st := run [Attack; Attack; ChildList 10; Rest] page in
  let st' := step (ChildList 10) st in
  observer st.1 = Some 4
  ∧ registered 10 st.2 = [3]
  ∧ intervals st.2 = ∅
  ∧ dom (intervals st'.2) = {[1; 2]}.
Proof. vm_compute. repeat split; reflexivity. Qed.

(** * Further properties *)

(** ** BlinkerSignal: ticks *)

Section BlinkerTicks.
Implicit Types (w : World) (b : ref) (v : BlinkerVars) (e : Elem).

Lemma position_shown v v' (k : nat) (cl : list string) :
  bl_on v' = bl_on v → bl_off v' = bl_off v →
  bl_pattern v' = bl_pattern v → bl_i v' = Some k →
  shows v k (repainted v' cl).
Proof.
  intros Hon Hoff Hpat Hi. unfold shows, repainted.
  rewrite Hon, Hoff, Hpat, Hi.
  destruct (BlinkerSignal.dash _ _); apply repaint_shows.
Qed.

Lemma elements_add (r r' : ref) e w :
  Signal.elements r' (Signal.add r e w)
  = if decide (r' = r) then Signal.elements r w ++ [e]
    else Signal.elements r' w.
Proof.
  unfold Signal.elements, Signal.add. simpl. rewrite lookup_insert.
  by repeat case_decide; subst.
Qed.

Lemma elements_empty (r r' : ref) w :
  Signal.elements r' (Signal.empty r w)
  = if decide (r' = r) then [] else Signal.elements r' w.
Proof.
  unfold Signal.elements, Signal.empty. simpl. rewrite lookup_insert.
  by repeat case_decide; subst.
Qed.

Lemma blinker_start_vars b w v :
  blinkers w !! b = Some v →
  ∃ t, blinkers (BlinkerSignal.start b w) !! b = Some (set_bl_timer t v).
Proof.
  intros H. unfold BlinkerSignal.start. rewrite H.
  destruct (bl_timer v) as [t|] eqn:Ht.
  - exists (Some t). rewrite H. f_equal. destruct v. simpl in *. by subst.
  - rewrite log_console. simpl. rewrite lookup_alter_eq, H. by eexists.
Qed.

(** One use of a blinker keeps its pattern and keeps the cursor an
    index of the pattern. *)
Lemma blinker_step_in_range b (u : option Method) w v (k : nat) :
  blinkers w !! b = Some v →
  bl_i v = Some k → k < String.length (bl_pattern v) →
  ∃ v' k', blinkers (blinker_step b u w) !! b = Some v'
    ∧ bl_pattern v' = bl_pattern v
    ∧ bl_i v' = Some k' ∧ k' < String.length (bl_pattern v).
Proof.
  intros H Hi Hk.
  assert (Hmod : ∀ n, (n + 1) mod String.length (bl_pattern v)
                      < String.length (bl_pattern v)).
  { intros n. apply Nat.mod_upper_bound. lia. }
  destruct u as [[| |element|]|]; simpl.
  - destruct (blinker_start_vars b w v H) as [t ->]. by exists (set_bl_timer t v), k.
  - rewrite (stop_vars b w v H). eexists _, _. split; [done|]. split; [done|].
    simpl. rewrite decide_False by lia. split; [done|apply (Hmod 0)].
  - by exists v, k.
  - by exists v, k.
  - rewrite (update_vars b w v H). eexists _, _. split; [done|]. split; [done|].
    simpl. rewrite Hi. simpl. rewrite decide_False by lia.
    split; [done|apply Hmod].
Qed.
End BlinkerTicks.

(** X1.  One tick paints the position under the cursor on every
    target of the collection, leaves every other element as it is, and
    keeps the collection. *)
Theorem tick_paints_the_targets (b : ref) (w : World) (v : BlinkerVars)
    (k : nat) :
  blinkers w !! b = Some v →
  bl_i v = Some k →
  (∀ e, e ∈ Signal.elements b w →
     shows v k (classes e (BlinkerSignal.update b w)))
  ∧ (∀ e, e ∉ Signal.elements b w →
       classes e (BlinkerSignal.update b w) = classes e w)
  ∧ targets (BlinkerSignal.update b w) = targets w.
Proof.
  intros H Hi. split; [|split].
  - intros e He. rewrite (update_classes b w v e H), decide_True by done.
    by apply position_shown.
  - intros e He. by rewrite (update_classes b w v e H), decide_False.
  - apply update_targets.
Qed.

Lemma tick_paints_the_targets_witness :
  let w := Signal.add 0 11
             (BlinkerSignal.new "sos-on" "sos-off" 250 " -"
                (boot 0 true [] birdseye)).2 in
  classes 11 (BlinkerSignal.update 0 w) = ["sos-on"]
  ∧ classes 12 (BlinkerSignal.update 0 w) = classes 12 w.
Proof.
  intros w.
  assert (Hv : blinkers w !! 0
               = Some {| bl_on := "sos-on"; bl_off := "sos-off";
                         bl_time := 250; bl_pattern := " -";
                         bl_timer := None; bl_i := Some 1 |})
    by (vm_compute; reflexivity).
  destruct (tick_paints_the_targets 0 w _ 1 Hv eq_refl) as (_ & Hout & _).
  split; [by vm_compute|]. apply Hout. vm_compute.
  intros Hin. apply list_elem_of_singleton in Hin. discriminate.
Defined.

(** X2.  From a cursor [k] inside the pattern, [n] ticks bring the
    cursor to [(k + n) mod length(pattern)]; as many ticks as the
    pattern is long bring it back to [k]. *)
Theorem ticks_walk_the_pattern (b : ref) (w : World) (v : BlinkerVars)
    (k n : nat) :
  blinkers w !! b = Some v →
  bl_i v = Some k →
  k < String.length (bl_pattern v) →
  cursor b (Nat.iter n (BlinkerSignal.update b) w)
  = Some (Some ((k + n) mod String.length (bl_pattern v)))
  ∧ cursor b (Nat.iter (String.length (bl_pattern v))
                (BlinkerSignal.update b) w)
    = Some (Some k).
Proof.
  intros H Hi Hk.
  assert (Hn : ∀ n, ∃ v',
            blinkers (Nat.iter n (BlinkerSignal.update b) w) !! b = Some v'
            ∧ bl_pattern v' = bl_pattern v
            ∧ bl_i v' = Some ((k + n) mod String.length (bl_pattern v))).
  { clear n. induction n as [|n (v' & Hv' & Hpat & Hi')].
    - exists v. split; [done|]. split; [done|].
      by rewrite Nat.add_0_r, Nat.mod_small.
    - change (Nat.iter (S n) (BlinkerSignal.update b) w)
        with (BlinkerSignal.update b (Nat.iter n (BlinkerSignal.update b) w)).
      eexists. split; [by apply update_vars|]. split; [done|].
      simpl. rewrite Hi', Hpat. simpl. rewrite decide_False by lia.
      f_equal. rewrite Nat.Div0.add_mod_idemp_l. f_equal. lia. }
  split.
  - destruct (Hn n) as (v' & Hv' & _ & Hi'). unfold cursor.
    by rewrite Hv', <- Hi'.
  - destruct (Hn (String.length (bl_pattern v))) as (v' & Hv' & _ & Hi').
    unfold cursor. rewrite Hv'. simpl. rewrite Hi'. do 2 f_equal.
    rewrite <- Nat.Div0.add_mod_idemp_r, Nat.Div0.mod_same, Nat.add_0_r.
    by apply Nat.mod_small.
Qed.

Lemma ticks_walk_the_pattern_witness :
  let w := (BlinkerSignal.new "sos-on" "sos-off" 250 nagios_hawk.pattern
              (boot 0 true [] birdseye)).2 in
  cursor 0 (Nat.iter 40 (BlinkerSignal.update 0) w)
  = Some (Some ((1 + 40) mod String.length nagios_hawk.pattern))
  ∧ cursor 0 (Nat.iter (String.length nagios_hawk.pattern)
                (BlinkerSignal.update 0) w)
    = Some (Some 1).
Proof.
  intros w.
  assert (Hv : blinkers w !! 0
               = Some {| bl_on := "sos-on"; bl_off := "sos-off";
                         bl_time := 250; bl_pattern := nagios_hawk.pattern;
                         bl_timer := None; bl_i := Some 1 |})
    by (vm_compute; reflexivity).
  assert (Hk : 1 < String.length nagios_hawk.pattern) by (vm_compute; lia).
  exact (ticks_walk_the_pattern 0 w _ 1 40 Hv eq_refl Hk).
Defined.

(** X3.  A blinker built on a pattern that is not empty keeps its
    cursor an index of the pattern, whatever is done to it: calls of
    [start], [stop], [add], [empty] and ticks, in any order. *)
Theorem cursor_stays_in_range (on off : string) (time : Z)
    (pattern : string) (w0 : World) (uses : list (option Method)) :
  1 ≤ String.length pattern →
  let b := next_ref w0 in
  let w := (BlinkerSignal.new on off time pattern w0).2 in
  ∃ k, cursor b (foldl (λ w u, blinker_step b u w) w uses) = Some (Some k)
    ∧ k < String.length pattern.
Proof.
  intros Hlen b w.
  assert (H0 : ∃ v k, blinkers w !! b = Some v ∧ bl_pattern v = pattern
                 ∧ bl_i v = Some k ∧ k < String.length pattern).
  { unfold w, BlinkerSignal.new. simpl.
    set (v0 := {| bl_on := on; bl_off := off; bl_time := time;
                  bl_pattern := pattern; bl_timer := None; bl_i := None |}).
    eexists _, _. split; [apply (stop_vars _ _ v0); simpl;
                           by rewrite lookup_insert_eq|].
    simpl. rewrite decide_False by lia. split; [done|]. split; [done|].
    apply Nat.mod_upper_bound. lia. }
  clearbody w. revert w H0.
  induction uses as [|u uses IH]; intros w (v & k & Hv & Hpat & Hi & Hk); simpl.
  - exists k. unfold cursor. by rewrite Hv, <- Hi.
  - apply IH. rewrite <- Hpat in Hk.
    destruct (blinker_step_in_range b u w v k Hv Hi Hk)
      as (v' & k' & Hv' & Hpat' & Hi' & Hk').
    exists v', k'. rewrite Hpat' , Hpat in *. done.
Qed.

Lemma cursor_stays_in_range_witness :
  ∃ k, cursor 0
         (foldl (λ w u, blinker_step 0 u w)
            (BlinkerSignal.new "sos-on" "sos-off" 250 " -"
               (boot 0 true [] birdseye)).2
            [Some MStart; None; None; None; Some (MAdd 11); Some MStop; None])
       = Some (Some k)
    ∧ k < 2.
Proof.
  apply (cursor_stays_in_range "sos-on" "sos-off" 250 " -"
           (boot 0 true [] birdseye)).
  vm_compute. lia.
Defined.

(** X4.  On the empty pattern the cursor is no index from the first
    [stop()] on ([(0 + 1) % 0] is [NaN]) and no tick brings it back;
    every pass paints the off flag on the targets. *)
Theorem empty_pattern_loses_the_cursor (b : ref) (w : World)
    (v : BlinkerVars) (n : nat) :
  blinkers w !! b = Some v →
  bl_pattern v = "" →
  let w' := Nat.iter n (BlinkerSignal.update b) (BlinkerSignal.stop b w) in
  cursor b w' = Some None
  ∧ ∀ e, e ∈ Signal.elements b w → bl_off v ∈ classes e w'.
Proof.
  intros H Hpat.
  assert (Hoff : ∀ v' cl, bl_pattern v' = "" → bl_off v' = bl_off v →
            bl_off v ∈ repainted v' cl).
  { intros v' cl Hp <-. unfold repainted. rewrite Hp.
    assert (Hd : BlinkerSignal.dash "" (bl_i v') = false)
      by (by destruct (bl_i v')).
    rewrite Hd. apply repaint_shows. }
  cbv zeta. induction n as [|n (IHc & IHe)].
  - simpl. split.
    + unfold cursor. rewrite (stop_vars b w v H), Hpat. done.
    + intros e He. rewrite (stop_classes b w v e H), decide_True by done.
      by apply Hoff.
  - change (Nat.iter (S n) (BlinkerSignal.update b) (BlinkerSignal.stop b w))
      with (BlinkerSignal.update b
              (Nat.iter n (BlinkerSignal.update b) (BlinkerSignal.stop b w))).
    set (wn := Nat.iter n (BlinkerSignal.update b) (BlinkerSignal.stop b w))
      in *.
    destruct (ticks_keep_look b (BlinkerSignal.stop b w) _ n
                (stop_vars b w v H)) as (vn & Hvn & _ & Hoffn & Hpatn).
    fold wn in Hvn. simpl in Hoffn, Hpatn.
    assert (Hin : bl_i vn = None).
    { unfold cursor in IHc. rewrite Hvn in IHc. by injection IHc. }
    split.
    + unfold cursor. rewrite (update_vars b wn vn Hvn). simpl.
      by rewrite Hin.
    + intros e He. rewrite (update_classes b wn vn e Hvn).
      case_decide; [apply Hoff; congruence|by apply IHe].
Qed.

Lemma empty_pattern_loses_the_cursor_witness :
  let w := Signal.add 0 11
             (BlinkerSignal.new "sos-on" "sos-off" 250 ""
                (boot 0 true [] birdseye)).2 in
  cursor 0 (Nat.iter 3 (BlinkerSignal.update 0) (BlinkerSignal.stop 0 w))
  = Some None.
Proof.
  intros w.
  assert (Hv : blinkers w !! 0
               = Some {| bl_on := "sos-on"; bl_off := "sos-off";
                         bl_time := 250; bl_pattern := "";
                         bl_timer := None; bl_i := None |})
    by (vm_compute; reflexivity).
  exact (proj1 (empty_pattern_loses_the_cursor 0 w _ 3 Hv eq_refl)).
Defined.

(** X5.  [add] paints nothing: the new target keeps its class list
    until the next tick, which paints it like the others. *)
Theorem added_target_waits_for_the_tick (b : ref) (w : World)
    (v : BlinkerVars) (k : nat) (e : Elem) :
  blinkers w !! b = Some v →
  bl_i v = Some k →
  classList (Signal.add b e w) = classList w
  ∧ Signal.elements b (Signal.add b e w) = Signal.elements b w ++ [e]
  ∧ shows v k (classes e (BlinkerSignal.update b (Signal.add b e w))).
Proof.
  intros H Hi. split; [done|].
  assert (He : Signal.elements b (Signal.add b e w)
               = Signal.elements b w ++ [e]).
  { rewrite elements_add. by rewrite decide_True. }
  split; [done|].
  rewrite (update_classes b (Signal.add b e w) v e) by done.
  rewrite decide_True.
  - by apply position_shown.
  - rewrite He, elem_of_app, list_elem_of_singleton. by right.
Qed.

Lemma added_target_waits_for_the_tick_witness :
  let w := (BlinkerSignal.new "sos-on" "sos-off" 250 " -"
              (boot 0 true [] birdseye)).2 in
  classes 11 (Signal.add 0 11 w) = []
  ∧ classes 11 (BlinkerSignal.update 0 (Signal.add 0 11 w)) = ["sos-on"].
Proof.
  intros w.
  assert (Hv : blinkers w !! 0
               = Some {| bl_on := "sos-on"; bl_off := "sos-off";
                         bl_time := 250; bl_pattern := " -";
                         bl_timer := None; bl_i := Some 1 |})
    by (vm_compute; reflexivity).
  pose proof (added_target_waits_for_the_tick 0 w _ 1 11 Hv eq_refl)
    as (Hc & _ & _).
  split; [|by vm_compute].
  unfold classes. rewrite Hc. by vm_compute.
Defined.

(** ** Starting and stopping a leaf signal *)

Section LeafTimers.
Implicit Types (w : World) (cb : Callback) (a b : ref).

Lemma leaf_stop_intervals cb (t : nat) w :
  schedule_of cb w = Some t →
  intervals (leaf_stop cb w) = delete t (intervals w)
  ∧ next_interval (leaf_stop cb w) = next_interval w.
Proof.
  destruct cb as [b|a]; simpl; intros Hs.
  - destruct (blinkers w !! b) as [v|] eqn:H; [|done]. simpl in Hs.
    unfold BlinkerSignal.stop. rewrite H, Hs.
    destruct (update_frame b
      (set_blinkers (alter (set_bl_i (Some 0)) b)
         (set_blinkers (alter (set_bl_timer None) b)
            (clearInterval t (log (Message "Hawk: stop blinker") w)))))
      as (-> & -> & _).
    by rewrite log_console.
  - destruct (audios w !! a) as [v|] eqn:H; [|done]. simpl in Hs.
    unfold AudioSignal.stop. rewrite H, Hs. by rewrite log_console.
Qed.

Lemma timer_state_schedule cb w :
  schedule_of cb w = default None (timer_state cb w).
Proof.
  destruct cb as [b|a]; simpl;
    [by destruct (blinkers w !! b)|by destruct (audios w !! a)].
Qed.

(** What [start] does to the table when the instance holds no
    interval. *)
Lemma leaf_start_intervals cb w :
  timer_state cb w = Some None →
  ∃ period,
    intervals (leaf_start cb w)
    = <[next_interval w := (cb, period)]> (intervals w)
    ∧ next_interval (leaf_start cb w) = S (next_interval w)
    ∧ schedule_of cb (leaf_start cb w) = Some (next_interval w).
Proof.
  destruct cb as [b|a]; simpl; intros Hs.
  - destruct (blinkers w !! b) as [v|] eqn:H; [|done].
    injection Hs as Ht. unfold BlinkerSignal.start. rewrite H, Ht.
    rewrite log_console. simpl. exists (bl_time v).
    by rewrite lookup_alter_eq, H.
  - destruct (audios w !! a) as [v|] eqn:H; [|done].
    injection Hs as Ht. unfold AudioSignal.start. rewrite H, Ht.
    set (w1 := log (Message "Hawk: start alarm") w).
    destruct (play_frame a w1) as (Hi & Hn & _).
    destruct (play_vars a w1 v) as [el Hel].
    { unfold w1. by rewrite log_console. }
    exists (au_time v). simpl. rewrite Hi, Hn, lookup_alter_eq, Hel.
    unfold w1. by rewrite log_console.
Qed.

Lemma leaf_start_noop cb w :
  timer_state cb w ≠ Some None → leaf_start cb w = w.
Proof.
  destruct cb as [b|a]; simpl; intros Hs.
  - unfold BlinkerSignal.start. destruct (blinkers w !! b) as [v|]; [|done].
    simpl in Hs. by destruct (bl_timer v).
  - unfold AudioSignal.start. destruct (audios w !! a) as [v|]; [|done].
    simpl in Hs. by destruct (au_timer v).
Qed.

Lemma leaf_start_self cb w : timer_state cb (leaf_start cb w) ≠ Some None.
Proof.
  destruct (decide (timer_state cb w = Some None)) as [Hs|Hs].
  - destruct (leaf_start_intervals cb w Hs) as (p & _ & _ & H).
    rewrite timer_state_schedule in H.
    by destruct (timer_state cb (leaf_start cb w)) as [[]|].
  - by rewrite leaf_start_noop.
Qed.

Lemma leaf_start_other cb cb' w :
  cb ≠ cb' → timer_state cb (leaf_start cb' w) = timer_state cb w.
Proof.
  intros Hne. destruct cb' as [b'|a']; simpl.
  - unfold BlinkerSignal.start.
    destruct (blinkers w !! b') as [v|]; [|done].
    destruct (bl_timer v); [done|]. rewrite log_console.
    destruct cb as [b|a]; simpl; [|done].
    by rewrite lookup_alter_ne by congruence.
  - unfold AudioSignal.start.
    destruct (audios w !! a') as [v|] eqn:H; [|done].
    destruct (au_timer v); [done|].
    set (w1 := log (Message "Hawk: start alarm") w).
    assert (H1 : audios w1 !! a' = Some v).
    { unfold w1. by rewrite log_console. }
    destruct cb as [b|a]; simpl.
    + unfold AudioSignal.play. rewrite H1. simpl.
      unfold w1. by rewrite log_console.
    + rewrite lookup_alter_ne by congruence.
      unfold AudioSignal.play. rewrite H1. simpl.
      rewrite lookup_insert_ne by congruence.
      unfold w1. by rewrite log_console.
Qed.

Lemma start_all_noop (l : list Callback) w :
  (∀ cb, cb ∈ l → timer_state cb w ≠ Some None) →
  foldl (λ w cb, leaf_start cb w) w l = w.
Proof.
  induction l as [|cb l IH]; intros H; simpl; [done|].
  rewrite leaf_start_noop by (apply H, list_elem_of_here).
  apply IH. intros cb' Hin. by apply H, list_elem_of_further.
Qed.

Lemma start_all_arms (l : list Callback) cb w :
  cb ∈ l ∨ timer_state cb w ≠ Some None →
  timer_state cb (foldl (λ w cb, leaf_start cb w) w l) ≠ Some None.
Proof.
  revert w. induction l as [|cb' l IH]; intros w; simpl.
  - intros [H|H]; [by apply elem_of_nil in H|done].
  - intros H. apply IH.
    destruct (decide (cb = cb')) as [->|Hne];
      [right; apply leaf_start_self|].
    destruct H as [H|H].
    + apply elem_of_cons in H as [->|H]; [done|by left].
    + right. by rewrite leaf_start_other.
Qed.
End LeafTimers.

(** X6.  Once [stop()] has returned, the interval the signal held is
    gone from the table and its identifier fires nothing: no tick
    follows a stop. *)
Theorem no_tick_after_stop (cb : Callback) (t : nat) (w : World) :
  schedule_of cb w = Some t →
  intervals (leaf_stop cb w) = delete t (intervals w)
  ∧ schedule_of cb (leaf_stop cb w) = None
  ∧ fire t (leaf_stop cb w) = leaf_stop cb w.
Proof.
  intros Hs. destruct (leaf_stop_intervals cb t w Hs) as [Hi _].
  split; [done|]. split; [apply leaf_stop_disarms|].
  unfold fire. by rewrite Hi, lookup_delete_eq.
Qed.

Lemma no_tick_after_stop_witness :
  let w := BlinkerSignal.start 0 page.2 in
  intervals w !! 1 = Some (Update 0, 250%Z)
  ∧ fire 1 (leaf_stop (Update 0) w) = leaf_stop (Update 0) w.
Proof.
  intros w. split; [by vm_compute|].
  assert (Hs : schedule_of (Update 0) w = Some 1) by (vm_compute; reflexivity).
  exact (proj2 (proj2 (no_tick_after_stop (Update 0) 1 w Hs))).
Defined.

(** X7.  [start()] then [stop()] on a signal that held no interval
    gives the interval table back as it was; the identifier that was
    used is not handed out again. *)
Theorem start_then_stop_restores_the_table (cb : Callback) (w : World) :
  consistent w →
  timer_state cb w = Some None →
  intervals (leaf_stop cb (leaf_start cb w)) = intervals w
  ∧ schedule_of cb (leaf_stop cb (leaf_start cb w)) = None
  ∧ next_interval (leaf_stop cb (leaf_start cb w)) = S (next_interval w).
Proof.
  intros Hc Hs.
  destruct (leaf_start_intervals cb w Hs) as (p & Hi & Hn & Hsch).
  destruct (leaf_stop_intervals cb _ _ Hsch) as [Hi' Hn'].
  split; [|split; [apply leaf_stop_disarms|congruence]].
  rewrite Hi', Hi. apply delete_insert_id.
  destruct (intervals w !! next_interval w) as [entry|] eqn:E; [|done].
  apply (timers_fresh w Hc) in E. lia.
Qed.

Lemma start_then_stop_restores_the_table_witness :
  intervals (leaf_stop (Replay 1) (leaf_start (Replay 1) page.2))
  = intervals page.2
  ∧ next_interval (leaf_stop (Replay 1) (leaf_start (Replay 1) page.2))
    = S (next_interval page.2).
Proof.
  destruct (start_then_stop_restores_the_table (Replay 1) page.2
              (proj1 (page_sound 0 true [] birdseye [])))
    as (Hi & _ & Hn).
  - vm_compute. reflexivity.
  - split; [exact Hi|exact Hn].
Defined.

(** X8.  [start()] on an alarm that holds no interval asks for one
    playback at once and then schedules the replay with the period of
    the alarm.  [start()] on a blinker that holds no interval
    schedules [update] with the period of the blinker and paints
    nothing: class lists and cursor are untouched until the first
    tick. *)
Theorem start_of_an_idle_signal (a b : ref) (w : World) (va : AudioVars)
    (vb : BlinkerVars) :
  audios w !! a = Some va → au_timer va = None →
  blinkers w !! b = Some vb → bl_timer vb = None →
  (∃ va', audios (AudioSignal.start a w) !! a = Some va'
     ∧ played (au_audio va')
       = played (au_audio va) ++ [default true (head (play_outcomes w))]
     ∧ au_timer va' = Some (next_interval w)
     ∧ intervals (AudioSignal.start a w)
       = <[next_interval w := (Replay a, au_time va)]> (intervals w))
  ∧ blinkers (BlinkerSignal.start b w) !! b
    = Some (set_bl_timer (Some (next_interval w)) vb)
  ∧ intervals (BlinkerSignal.start b w)
    = <[next_interval w := (Update b, bl_time vb)]> (intervals w)
  ∧ classList (BlinkerSignal.start b w) = classList w
  ∧ audios (BlinkerSignal.start b w) = audios w.
Proof.
  intros Ha Hta Hb Htb. split.
  - unfold AudioSignal.start. rewrite Ha, Hta.
    set (w1 := log (Message "Hawk: start alarm") w).
    assert (H1 : audios w1 !! a = Some va)
      by (unfold w1; by rewrite log_console).
    assert (Hp : play_outcomes w1 = play_outcomes w)
      by (unfold w1; by rewrite log_console).
    assert (Hn : next_interval w1 = next_interval w)
      by (unfold w1; by rewrite log_console).
    assert (Hi : intervals w1 = intervals w)
      by (unfold w1; by rewrite log_console).
    unfold AudioSignal.play. rewrite H1. simpl.
    rewrite lookup_alter_eq, lookup_insert_eq. simpl.
    eexists. split; [done|]. simpl. by rewrite Hp, Hn, Hi.
  - unfold BlinkerSignal.start. rewrite Hb, Htb, log_console. simpl.
    by rewrite lookup_alter_eq, Hb.
Qed.

Lemma start_of_an_idle_signal_witness :
  (played ∘ au_audio <$> (audios (AudioSignal.start 1 page.2) !! 1)
   = Some [true])
  ∧ classList (BlinkerSignal.start 0 page.2) = classList page.2.
Proof.
  destruct (start_of_an_idle_signal 1 0 page.2
              {| au_time := 30000; au_timer := None;
                 au_audio := {| src := nagios_hawk.bell; paused := true;
                                played := [] |} |}
              {| bl_on := "sos-on"; bl_off := "sos-off"; bl_time := 250;
                 bl_pattern := nagios_hawk.pattern; bl_timer := None;
                 bl_i := Some 1 |})
    as ((va' & Hva' & Hp & _) & _ & _ & Hc & _);
    try (vm_compute; reflexivity).
  split; [|exact Hc]. rewrite Hva'. simpl. by rewrite Hp.
Defined.

(** X9.  [start()] is idempotent on every signal object, compositions
    included: a second [start()] right after the first returns and
    changes nothing. *)
Theorem start_again_on_any_signal (s : SignalRef) (w : World) :
  Controls.start (object s) w >>> Controls.start (object s)
  = Controls.start (object s) w.
Proof.
  rewrite object_start. simpl. rewrite object_start. f_equal.
  apply start_all_noop. intros cb Hcb. apply start_all_arms. by left.
Qed.

(** ** The watcher: wiring up, clicks, notifications *)

Section Wiring.
Implicit Types (w : World) (s : SignalRef) (e n : Elem) (h r : ref)
  (cb : Callback).

Lemma foldl_ext_world {A : Type} (f g : World → A → World) (l : list A) w :
  (∀ w x, f w x = g w x) → foldl f w l = foldl g w l.
Proof.
  intros H. revert w. induction l as [|x l IH]; intros w; simpl; [done|].
  by rewrite H, IH.
Qed.

Lemma clicked_unfold e w :
  clicked e w
  = foldl (λ w l, foldl (λ w cb, leaf_stop cb w) w (tickers l)) w
      (listeners e w).
Proof.
  unfold clicked. apply foldl_ext_world. intros w' l.
  by rewrite object_stop.
Qed.

Lemma stop_listeners_disarm (l : list SignalRef) s cb w :
  cb ∈ tickers s →
  s ∈ l ∨ schedule_of cb w = None →
  schedule_of cb
    (foldl (λ w l, foldl (λ w cb, leaf_stop cb w) w (tickers l)) w l)
  = None.
Proof.
  intros Hcb. revert w. induction l as [|s' l IH]; intros w; simpl.
  - intros [H|H]; [by apply elem_of_nil in H|done].
  - intros [H|H]; apply IH.
    + apply elem_of_cons in H as [<-|H]; [right|by left].
      apply stop_all_disarms. by left.
    + right. apply stop_all_disarms. by right.
Qed.

Lemma listeners_add_here e s w :
  identity s ∈ identity <$> listeners e (addEventListener e s w).
Proof.
  unfold addEventListener. case_decide as H; [done|].
  unfold listeners at 1. simpl. rewrite lookup_insert_eq. simpl.
  rewrite fmap_app, elem_of_app. right. apply list_elem_of_here.
Qed.

Lemma listeners_add_keeps e e' s s' w :
  identity s ∈ identity <$> listeners e w →
  identity s ∈ identity <$> listeners e (addEventListener e' s' w).
Proof.
  intros H. unfold addEventListener. case_decide as H'; [done|].
  unfold listeners at 1. simpl. rewrite lookup_insert.
  case_decide; [subst|done]. simpl.
  rewrite fmap_app, elem_of_app. by left.
Qed.

Lemma addEventListener_again e s w :
  identity s ∈ identity <$> listeners e w → addEventListener e s w = w.
Proof. intros H. unfold addEventListener. by rewrite decide_True. Qed.

Lemma observe_registers h n w : h ∈ registered n (observe h n w).
Proof.
  unfold observe. case_decide as H; [done|].
  unfold registered at 1. simpl. rewrite lookup_insert_eq. simpl.
  rewrite elem_of_app. right. apply list_elem_of_here.
Qed.

(** The collection of [r] after [element] went to every leaf of a
    signal: [r] got it once for every leaf it backs. *)
Lemma add_all_elements (element : Elem) (l : list Callback) r w :
  Signal.elements r
    (foldl (λ w cb, Signal.add (holder cb) element w) w l)
  = Signal.elements r w
    ++ replicate (length (filter (λ cb, holder cb = r) l)) element.
Proof.
  revert w. induction l as [|cb l IH]; intros w; simpl.
  - by rewrite app_nil_r.
  - rewrite IH, elements_add, filter_cons.
    destruct (decide (holder cb = r)) as [<-|Hne].
    + rewrite !decide_True by done. simpl. by rewrite <- app_assoc.
    + by rewrite !decide_False by congruence.
Qed.

Lemma connect_loop_frame s (l : list Elem) w :
  connect_loop s w l
  = set_click (λ _, click (connect_loop s w l))
      (set_targets (λ _, targets (connect_loop s w l)) w).
Proof.
  unfold connect_loop. revert w. induction l as [|e l IH]; intros w; simpl.
  - by destruct w.
  - rewrite IH at 1. rewrite add_all_frame.
    unfold addEventListener. by case_decide.
Qed.

Lemma connect_loop_listeners s (l : list Elem) e w :
  e ∈ l ∨ identity s ∈ identity <$> listeners e w →
  identity s ∈ identity <$> listeners e (connect_loop s w l).
Proof.
  unfold connect_loop. revert w. induction l as [|e' l IH]; intros w; simpl.
  - intros [H|H]; [by apply elem_of_nil in H|done].
  - intros [H|H]; apply IH.
    + apply elem_of_cons in H as [->|H]; [right|by left].
      apply listeners_add_here.
    + right. apply listeners_add_keeps.
      unfold listeners. by rewrite add_all_frame.
Qed.

Lemma connect_loop_elements s (l : list Elem) r w :
  Signal.elements r (connect_loop s w l)
  = Signal.elements r w
    ++ (l ≫= replicate (length (filter (λ cb, holder cb = r) (tickers s)))).
Proof.
  unfold connect_loop. revert w. induction l as [|e l IH]; intros w; simpl.
  - by rewrite app_nil_r.
  - rewrite IH, app_assoc. f_equal.
    rewrite <- add_all_elements.
    unfold Signal.elements, addEventListener. by case_decide.
Qed.

Lemma connect_loop_again s (l : list Elem) w :
  (∀ e, e ∈ l → identity s ∈ identity <$> listeners e w) →
  click (connect_loop s w l) = click w.
Proof.
  unfold connect_loop. revert w. induction l as [|e l IH]; intros w H; simpl; [done|].
  assert (Hsame : ∀ e', listeners e'
            (foldl (λ w cb, Signal.add (holder cb) e w) w (tickers s))
            = listeners e' w).
  { intros e'. unfold listeners. by rewrite add_all_frame. }
  rewrite addEventListener_again
    by (rewrite Hsame; apply H, list_elem_of_here).
  rewrite IH.
  - by rewrite add_all_frame.
  - intros e' He'. rewrite Hsame. by apply H, list_elem_of_further.
Qed.
(** What [connect()] does, in one place. *)
Lemma connect_effect h w v :
  hawkeyes w !! h = Some v →
  ∃ w', Hawkeye.connect h w = Normal w'
    ∧ wiring_only w w'
    ∧ observers w'
      = observers (observe h (hk_source v)
                     (log (Message "Hawk: start observing") w))
    ∧ (∀ e, e ∈ hk_source v :: hk_targets v →
         identity (hk_signal v) ∈ identity <$> listeners e w')
    ∧ (∀ r, Signal.elements r w'
            = Signal.elements r w
              ++ (hk_targets v ≫=
                  replicate (length (filter (λ cb, holder cb = r)
                                       (tickers (hk_signal v))))))
    ∧ ((∀ e, e ∈ hk_source v :: hk_targets v →
          identity (hk_signal v) ∈ identity <$> listeners e w) →
       click w' = click w).
Proof.
  intros H. destruct (connect_wiring_only h w) as (w' & E & Hw).
  exists w'. split; [done|]. split; [done|].
  rewrite (connect_unfold h w v H) in E. injection E as <-.
  fold (connect_loop (hk_signal v)
          (addEventListener (hk_source v) (hk_signal v)
             (observe h (hk_source v)
                (log (Message "Hawk: start observing") w)))
          (hk_targets v)).
  set (w1 := log (Message "Hawk: start observing") w).
  set (w2 := observe h (hk_source v) w1).
  set (w3 := addEventListener (hk_source v) (hk_signal v) w2).
  assert (Hl2 : ∀ e, listeners e w2 = listeners e w).
  { intros e. unfold listeners, w2, observe, w1.
    case_decide; simpl; by rewrite log_console. }
  split; [|split; [|split]].
  - rewrite connect_loop_frame. simpl. unfold w3, addEventListener.
    by case_decide.
  - intros e He. apply connect_loop_listeners.
    apply elem_of_cons in He as [->|He]; [right|by left].
    apply listeners_add_here.
  - intros r. rewrite connect_loop_elements. f_equal.
    unfold Signal.elements, w3, addEventListener, w2, observe, w1.
    repeat case_decide; simpl; by rewrite log_console.
  - intros Hall.
    assert (H3 : w3 = w2).
    { apply addEventListener_again. rewrite Hl2.
      apply Hall, list_elem_of_here. }
    rewrite connect_loop_again.
    + rewrite H3. unfold w2, observe, w1.
      case_decide; simpl; by rewrite log_console.
    + intros e He. rewrite H3, Hl2. by apply Hall, list_elem_of_further.
Qed.
End Wiring.

(** X10.  A click on an element that carries the [stop] listener of a
    signal stops every leaf of that signal, whatever other listeners
    the element has: no leaf holds a timer afterwards and no interval
    runs a callback of the signal. *)
Theorem click_silences_the_signal (e : Elem) (s : SignalRef)
    (cb : Callback) (w : World) :
  consistent w →
  s ∈ listeners e w →
  cb ∈ tickers s →
  schedule_of cb (clicked e w) = None
  ∧ active cb (clicked e w) = ∅
  ∧ consistent (clicked e w).
Proof.
  intros Hc Hs Hcb.
  assert (Hc' : consistent (clicked e w)).
  { rewrite clicked_unfold.
    apply (fold_preserves consistent
             (λ l w, foldl (λ w cb, leaf_stop cb w) w (tickers l))); [|done].
    intros l w'. apply (fold_preserves consistent leaf_stop).
    apply leaf_stop_consistent. }
  assert (Hn : schedule_of cb (clicked e w) = None).
  { rewrite clicked_unfold. apply (stop_listeners_disarm _ s); [done|by left]. }
  split; [done|]. split; [by apply no_schedule|done].
Qed.

Lemma click_silences_the_signal_witness :
  let w := (run [Attack; ChildList 10; ChildList 10] page).2 in
  dom (intervals w) = {[1; 2]}
  ∧ active (Replay 1) (clicked 11 w) = ∅
  ∧ active (Update 0) (clicked 11 w) = ∅.
Proof.
  intros w. split; [by vm_compute|].
  assert (Hl : Composed 2 [Blinker 0; Audio 1] ∈ listeners 11 w)
    by (vm_compute; apply list_elem_of_here).
  pose proof (proj1 (page_sound 0 true [] birdseye
                       [Attack; ChildList 10; ChildList 10])) as Hc.
  split.
  - apply (click_silences_the_signal 11 _ (Replay 1) w Hc Hl).
    apply list_elem_of_further, list_elem_of_here.
  - apply (click_silences_the_signal 11 _ (Update 0) w Hc Hl).
    apply list_elem_of_here.
Defined.

(** X11.  [connect()] returns, and then: the observer of the watcher
    is registered on the source; the [stop] listener of the signal is
    on the source and on every target; every target went, in order, to
    the collection of every leaf of the signal.  Nothing else
    happened: no timer, no class list, no signal variable changed. *)
Theorem connect_wires_the_watcher (h : ref) (w : World) (v : HawkeyeVars) :
  hawkeyes w !! h = Some v →
  ∃ w', Hawkeye.connect h w = Normal w'
    ∧ h ∈ registered (hk_source v) w'
    ∧ (∀ e, e ∈ hk_source v :: hk_targets v →
         identity (hk_signal v) ∈ identity <$> listeners e w')
    ∧ (∀ r, Signal.elements r w'
            = Signal.elements r w
              ++ (hk_targets v ≫=
                  replicate (length (filter (λ cb, holder cb = r)
                                       (tickers (hk_signal v))))))
    ∧ wiring_only w w'.
Proof.
  intros H.
  destruct (connect_effect h w v H) as (w' & E & Hw & Ho & Hl & He & _).
  exists w'. split; [done|]. split; [|done].
  unfold registered. rewrite Ho. apply observe_registers.
Qed.

Lemma connect_wires_the_watcher_witness :
  let w := (Hawkeye.new 10 [11; 12] (signal page.1) page.2).2 in
  ∃ w', Hawkeye.connect 3 w = Normal w'
    ∧ 3 ∈ registered 10 w'
    ∧ Signal.elements 0 w' = [11; 12]
    ∧ intervals w' = intervals w.
Proof.
  intros w.
  assert (Hv : hawkeyes w !! 3
               = Some {| hk_source := 10; hk_targets := [11; 12];
                         hk_signal := Composed 2 [Blinker 0; Audio 1];
                         hk_debounce := {| first := true; early := true;
                                           mark := 0 |} |})
    by (vm_compute; reflexivity).
  destruct (connect_wires_the_watcher 3 w _ Hv) as (w' & E & Hr & _ & He & Hw).
  exists w'. split; [exact E|]. split; [exact Hr|].
  split; [|apply (wired_intervals _ _ Hw)].
  rewrite (He 0). by vm_compute.
Defined.

(** X12.  A second [connect()] on the same watcher subscribes nothing
    twice: observers and click listeners are those of the first call.
    It does hand every target to the signal once more. *)
Theorem connect_twice_duplicates_targets_only (h : ref) (w : World)
    (v : HawkeyeVars) :
  hawkeyes w !! h = Some v →
  ∃ w1 w2, Hawkeye.connect h w = Normal w1
    ∧ Hawkeye.connect h w1 = Normal w2
    ∧ observers w2 = observers w1
    ∧ click w2 = click w1
    ∧ ∀ r, Signal.elements r w2
           = Signal.elements r w1
             ++ (hk_targets v ≫=
                 replicate (length (filter (λ cb, holder cb = r)
                                      (tickers (hk_signal v))))).
Proof.
  intros H.
  destruct (connect_effect h w v H) as (w1 & E1 & Hw1 & Ho1 & Hl1 & _ & _).
  assert (H1 : hawkeyes w1 !! h = Some v)
    by (by rewrite (wired_hawkeyes _ _ Hw1)).
  destruct (connect_effect h w1 v H1) as (w2 & E2 & _ & Ho2 & _ & He2 & Hc2).
  exists w1, w2. split; [done|]. split; [done|].
  split; [|split; [by apply Hc2|done]].
  rewrite Ho2. unfold observe. rewrite decide_True.
  - by rewrite log_console.
  - unfold registered. rewrite log_console. simpl.
    fold (registered (hk_source v) w1). unfold registered. rewrite Ho1.
    apply observe_registers.
Qed.

Lemma connect_twice_duplicates_targets_only_witness :
  let w := (Hawkeye.new 10 [11] (signal page.1) page.2).2 in
  ∃ w1 w2, Hawkeye.connect 3 w = Normal w1
    ∧ Hawkeye.connect 3 w1 = Normal w2
    ∧ click w2 = click w1
    ∧ Signal.elements 0 w2 = Signal.elements 0 w1 ++ [11].
Proof.
  intros w.
  assert (Hv : hawkeyes w !! 3
               = Some {| hk_source := 10; hk_targets := [11];
                         hk_signal := Composed 2 [Blinker 0; Audio 1];
                         hk_debounce := {| first := true; early := true;
                                           mark := 0 |} |})
    by (vm_compute; reflexivity).
  destruct (connect_twice_duplicates_targets_only 3 w _ Hv)
    as (w1 & w2 & E1 & E2 & _ & Hc & He).
  exists w1, w2. split; [exact E1|]. split; [exact E2|].
  split; [exact Hc|]. exact (He 0).
Defined.

(** ** Logging *)

Section Logging.
Implicit Types (w : World).

Lemma log_only_console (m : LogEntry) w : only_console w (log m w).
Proof. unfold only_console. rewrite log_console. by destruct w. Qed.

Lemma only_console_trans w1 w2 w3 :
  only_console w1 w2 → only_console w2 w3 → only_console w1 w3.
Proof. unfold only_console. intros -> ->. by destruct w1. Qed.

Lemma log_all_console (ms : list LogEntry) w :
  quiet w = false →
  foldl (λ w m, log m w) w ms = set_console (λ c, c ++ ms) w.
Proof.
  revert w. induction ms as [|m ms IH]; intros w Hq; simpl.
  - destruct w. unfold set_console. simpl. by rewrite app_nil_r.
  - rewrite IH by (by rewrite log_console).
    rewrite log_console, Hq. destruct w. unfold set_console. simpl.
    by rewrite <- app_assoc.
Qed.

Lemma logGroup_only_console (title : string) (ms : list LogEntry) w :
  only_console w (logGroup title ms w).
Proof.
  unfold only_console, logGroup. destruct (quiet w) eqn:Hq.
  - by destruct w.
  - rewrite log_all_console.
    + destruct w. by unfold set_console.
    + destruct w. unfold set_console. simpl in *. done.
Qed.
End Logging.

(** ** Notifications *)

Lemma callback_unfold (h : ref) (w : World) (v : HawkeyeVars) :
  hawkeyes w !! h = Some v →
  early (hk_debounce v) = true →
  Hawkeye.callback h w
  = Normal
      (set_hawkeyes
         (alter (set_hk_debounce {| first := false; early := true;
                                    mark := mark (hk_debounce v) |}) h)
         (if first (hk_debounce v)
          then let_through 3000 (hk_debounce v) w
          else foldl (λ w cb, leaf_start cb w)
                 (let_through 3000 (hk_debounce v) w)
                 (tickers (hk_signal v)))).
Proof.
  intros H He. unfold Hawkeye.callback. rewrite H.
  unfold Hawkeye.wrapped, let_through.
  destruct (hk_debounce v) as [f e m]. simpl in He. subst e.
  destruct f; case_bool_decide; simpl; by rewrite ?object_start.
Qed.

Lemma let_through_only_console (delta : Z) (g : Debounce) (w : World) :
  only_console w (let_through delta g w).
Proof.
  unfold let_through. case_bool_decide; [apply log_only_console|].
  unfold only_console. by destruct w.
Qed.

(** X13.  One notification of a watcher whose [early] flag is set (it
    is from the construction on) returns, clears [first] and keeps
    [early] and [mark].  When it is the first notification, the signal
    is left alone: no interval, no signal variable, no class list
    changes and no playback is asked for.  When it is a later one,
    every leaf of the signal holds a timer afterwards. *)
Theorem notification_starts_the_signal_unless_first (h : ref) (w : World)
    (v : HawkeyeVars) :
  hawkeyes w !! h = Some v →
  early (hk_debounce v) = true →
  ∃ w', Hawkeye.callback h w = Normal w'
    ∧ hk_debounce <$> (hawkeyes w' !! h)
      = Some {| first := false; early := true;
                mark := mark (hk_debounce v) |}
    ∧ if first (hk_debounce v)
      then intervals w' = intervals w ∧ blinkers w' = blinkers w
           ∧ audios w' = audios w ∧ classList w' = classList w
           ∧ play_outcomes w' = play_outcomes w
      else ∀ cb, cb ∈ tickers (hk_signal v) → timer_state cb w' ≠ Some None.
Proof.
  intros H He. eexists. split; [by apply callback_unfold|].
  pose proof (let_through_only_console 3000 (hk_debounce v) w) as Hlt.
  set (w0 := let_through 3000 (hk_debounce v) w) in *.
  assert (H0 : hawkeyes w0 = hawkeyes w) by (by rewrite Hlt).
  split.
  - simpl. rewrite lookup_alter_eq.
    destruct (first (hk_debounce v)).
    + by rewrite H0, H.
    + assert (Hh : hawkeyes (foldl (λ w cb, leaf_start cb w) w0
                               (tickers (hk_signal v))) = hawkeyes w0).
      { apply same_hawkeyes, fold_signal_only.
        intros cb w2. apply leaf_start_signal_only. }
      by rewrite Hh, H0, H.
  - destruct (first (hk_debounce v)).
    + simpl. by rewrite Hlt.
    + intros cb Hcb.
      pose proof (start_all_arms (tickers (hk_signal v)) cb w0
                    (or_introl Hcb)) as Harm.
      by destruct cb.
Qed.

Lemma notification_starts_the_signal_unless_first_witness :
  let w := (run [Attack] page).2 in
  ∃ w1 w2, Hawkeye.callback 3 w = Normal w1
    ∧ intervals w1 = intervals w
    ∧ Hawkeye.callback 3 w1 = Normal w2
    ∧ timer_state (Update 0) w2 ≠ Some None
    ∧ timer_state (Replay 1) w2 ≠ Some None.
Proof.
  intros w.
  assert (Hv : hawkeyes w !! 3
               = Some {| hk_source := 10; hk_targets := [11];
                         hk_signal := Composed 2 [Blinker 0; Audio 1];
                         hk_debounce := {| first := true; early := true;
                                           mark := 0 |} |})
    by (vm_compute; reflexivity).
  destruct (notification_starts_the_signal_unless_first 3 w _ Hv eq_refl)
    as (w1 & E1 & Hg1 & Hi & _).
  assert (Hv1 : hawkeyes w1 !! 3
                = Some {| hk_source := 10; hk_targets := [11];
                          hk_signal := Composed 2 [Blinker 0; Audio 1];
                          hk_debounce := {| first := false; early := true;
                                            mark := 0 |} |}).
  { assert (E : Hawkeye.callback 3 w = Normal (settled (Hawkeye.callback 3 w)))
      by (vm_compute; reflexivity).
    rewrite E in E1. injection E1 as <-. vm_compute. reflexivity. }
  destruct (notification_starts_the_signal_unless_first 3 w1 _ Hv1 eq_refl)
    as (w2 & E2 & _ & Harm).
  exists w1, w2. split; [exact E1|]. split; [exact Hi|]. split; [exact E2|].
  split; apply Harm.
  - apply list_elem_of_here.
  - apply list_elem_of_further, list_elem_of_here.
Defined.

(** X14.  Whatever the wrapped function does, failures included, and
    in whatever worlds the calls happen, [mark] never changes, [early]
    once set stays set and [first] once cleared stays cleared. *)
Theorem debounce_state_only_moves_forward
    (fnct : World → Completion World) (delta : Z) (g : Debounce)
    (ws : list World) :
  mark (after_calls fnct delta g ws) = mark g
  ∧ (early g = true → early (after_calls fnct delta g ws) = true)
  ∧ (first g = false → first (after_calls fnct delta g ws) = false).
Proof.
  revert g. induction ws as [|w ws IH]; intros g; simpl; [done|].
  destruct (IH (Hawkeye.wrapped fnct delta g w).1) as (Hm & He & Hf).
  assert (H : mark (Hawkeye.wrapped fnct delta g w).1 = mark g
            ∧ (early g = true → early (Hawkeye.wrapped fnct delta g w).1 = true)
            ∧ (first g = false →
               first (Hawkeye.wrapped fnct delta g w).1 = false)).
  { unfold Hawkeye.wrapped. destruct g as [f e m]. simpl.
    case_bool_decide; simpl; destruct e, f; simpl;
      try destruct (fnct _); simpl; by repeat split. }
  destruct H as (Hm' & He' & Hf'). rewrite Hm.
  split; [done|]. split; auto.
Qed.

(** ** The collection and the schedule *)

(** X15.  [empty()] stops nothing: the interval table and every signal
    variable are as before.  The blinker goes on ticking over an empty
    collection, and its ticks change no class list. *)
Theorem empty_blinds_but_does_not_stop (b : ref) (w : World) :
  intervals (Signal.empty b w) = intervals w
  ∧ blinkers (Signal.empty b w) = blinkers w
  ∧ audios (Signal.empty b w) = audios w
  ∧ Signal.elements b (Signal.empty b w) = []
  ∧ classList (BlinkerSignal.update b (Signal.empty b w)) = classList w.
Proof.
  split; [done|]. split; [done|]. split; [done|].
  assert (He : Signal.elements b (Signal.empty b w) = []).
  { rewrite elements_empty. by rewrite decide_True. }
  split; [done|].
  unfold BlinkerSignal.update. rewrite He.
  by destruct (blinkers (Signal.empty b w) !! b).
Qed.

(** ** ComposeSignal: compositions of compositions *)

Section ComposeAlgebra.
Context {S : Type}.
Implicit Types (l : list (Controls.t S)) (m : Method) (x : S).

Lemma call_controls l m :
  call m (ComposeSignal.controls l) = forEach (call m) l.
Proof. by destruct m. Qed.

Lemma forEach_app {A : Type} (f : A → S → Completion S) (l1 l2 : list A) x :
  forEach f (l1 ++ l2) x = forEach f l1 x >>> forEach f l2.
Proof.
  revert x. induction l1 as [|y l1 IH]; intros x; simpl; [done|].
  destruct (f y x) as [x'|x']; simpl; [apply IH|done].
Qed.

Lemma andThen_Normal (c : Completion S) : c >>> Normal = c.
Proof. by destruct c. Qed.

(** X16.  An operation on the composition of [l1 ++ l2] is the
    operation on the composition of [l1] followed, when that one
    returned, by the operation on the composition of [l2]; composing
    the two compositions gives the same; the composition of nothing
    does nothing. *)
Theorem compose_is_sequencing l1 l2 m x :
  call m (ComposeSignal.controls (l1 ++ l2)) x
  = call m (ComposeSignal.controls l1) x
    >>> call m (ComposeSignal.controls l2)
  ∧ call m (ComposeSignal.controls
              [ComposeSignal.controls l1; ComposeSignal.controls l2]) x
    = call m (ComposeSignal.controls (l1 ++ l2)) x
  ∧ call m (ComposeSignal.controls []) x = Normal x.
Proof.
  rewrite !call_controls. split; [apply forEach_app|]. split; [|done].
  simpl. rewrite !call_controls, forEach_app.
  destruct (forEach (call m) l1 x) as [x'|x']; simpl; [|done].
  apply andThen_Normal.
Qed.
End ComposeAlgebra.

(** X17.  The logging helpers write to the console and to nothing
    else.  With [doc.quiet] set they write nothing; without it [log]
    adds its message and [logGroup] adds the title, the messages in
    order and the end of the group. *)
Theorem logging_honours_quiet (title : string) (m : LogEntry)
    (ms : list LogEntry) (w : World) :
  only_console w (log m w)
  ∧ only_console w (logGroup title ms w)
  ∧ console (log m w) = (if quiet w then console w else console w ++ [m])
  ∧ console (logGroup title ms w)
    = (if quiet w then console w
       else console w ++ Group title :: ms ++ [GroupEnd]).
Proof.
  split; [apply log_only_console|].
  assert (Hg : logGroup title ms w
               = if quiet w then w
                 else set_console
                        (λ c, c ++ Group title :: ms ++ [GroupEnd]) w).
  { unfold logGroup. destruct (quiet w) eqn:Hq; [done|].
    rewrite log_all_console by done. destruct w. unfold set_console. simpl.
    by rewrite <- !app_assoc. }
  rewrite Hg, log_console. unfold only_console.
  destruct (quiet w); simpl; by destruct w.
Qed.

(** ** The page test *)

Section Suffix.
Implicit Types (s p suffix : string).

Lemma substring_whole s : String.substring 0 (String.length s) s = s.
Proof. induction s as [|c s IH]; simpl; [done|by rewrite IH]. Qed.

Lemma substring_split s (k : nat) :
  k ≤ String.length s →
  s = String.substring 0 k s
      +:+ String.substring k (String.length s - k) s.
Proof.
  revert k. induction s as [|c s IH]; intros k Hk; simpl in *.
  - by destruct k.
  - destruct k as [|k]; simpl.
    + by rewrite substring_whole.
    + change (String c s
              = String c (String.substring 0 k s
                          +:+ String.substring k (String.length s - k) s)).
      f_equal. apply IH. lia.
Qed.

Lemma length_append p s :
  String.length (p +:+ s) = String.length p + String.length s.
Proof. induction p as [|c p IH]; simpl; [done|by rewrite IH]. Qed.

Lemma substring_suffix p s :
  String.substring (String.length p) (String.length s) (p +:+ s) = s.
Proof. induction p as [|c p IH]; simpl; [apply substring_whole|done]. Qed.

Lemma endsWith_spec s suffix :
  endsWith s suffix = true ↔ ∃ p, s = p +:+ suffix.
Proof.
  unfold endsWith. rewrite andb_true_iff, !bool_decide_eq_true. split.
  - intros [Hle Hsub].
    exists (String.substring 0 (String.length s - String.length suffix) s).
    pose proof (substring_split s (String.length s - String.length suffix))
      as Hs.
    replace (String.length s - (String.length s - String.length suffix))
      with (String.length suffix) in Hs by lia.
    rewrite Hsub in Hs. apply Hs. lia.
  - intros [p ->]. rewrite length_append. split; [lia|].
    replace (String.length p + String.length suffix - String.length suffix)
      with (String.length p) by lia.
    apply substring_suffix.
Qed.
End Suffix.

(** X18.  [is_birdseye] answers yes exactly when the URL of the
    document in the frame ends with the route of the birdseye
    component, and it writes to the console only. *)
Theorem is_birdseye_reads_the_suffix (w : World) :
  ((nagios_hawk.is_birdseye w).1 = true
   ↔ ∃ prefix, URL (frame w) = prefix +:+ route)
  ∧ only_console w (nagios_hawk.is_birdseye w).2.
Proof.
  split; [apply endsWith_spec|apply log_only_console].
Qed.

(** ** The controller *)

Section Controller.
Implicit Types (w : World) (c : HawkVars) (h : ref).

Lemma same_signals_refl w : same_signals w w.
Proof. by split. Qed.

Lemma same_signals_trans w1 w2 w3 :
  same_signals w1 w2 → same_signals w2 w3 → same_signals w1 w3.
Proof. intros [] []. split; congruence. Qed.

Lemma same_signals_signal_only w w' : signal_only w w' → same_signals w w'.
Proof. intros []. by split. Qed.

Lemma same_signals_wiring_only w w' : wiring_only w w' → same_signals w w'.
Proof. intros []. split; congruence. Qed.

Lemma fold_same_signals {A : Type} (f : A → World → World) (l : list A) w :
  (∀ x w, same_signals w (f x w)) →
  same_signals w (foldl (λ w x, f x w) w l).
Proof.
  intros Hf. revert w. induction l as [|x l IH]; intros w; simpl.
  - apply same_signals_refl.
  - eapply same_signals_trans; [apply Hf|apply IH].
Qed.

Lemma observe_keeps h (n n' : Elem) (o : ref) w :
  o ∈ registered n w → o ∈ registered n (observe h n' w).
Proof.
  intros H. unfold observe. case_decide; [done|].
  unfold registered at 1. simpl. rewrite lookup_insert.
  case_decide; [subst|done]. simpl. rewrite elem_of_app. by left.
Qed.

(** What [attack()] does, in one place. *)
Lemma attack_effect c w :
  ∃ w', (nagios_hawk.attack c w).2 = Normal w'
    ∧ (nagios_hawk.attack c w).1 = set_observer (Some (next_ref w)) c
    ∧ frame w' = head_append sos_style (frame w)
    ∧ intervals w' = intervals w
    ∧ next_interval w' = next_interval w
    ∧ blinkers w' = blinkers w
    ∧ audios w' = audios w
    ∧ classList w' = classList w
    ∧ play_outcomes w' = play_outcomes w
    ∧ (∀ n o, o ∈ registered n w → o ∈ registered n w').
Proof.
  unfold nagios_hawk.attack. fold sos_style.
  pose proof (log_only_console (Message "Hawk: attack") w) as H1.
  set (w1 := log (Message "Hawk: attack") w) in *.
  set (w2 := inject_style sos_style w1).
  pose proof (logGroup_only_console "Hawk: source and targets"
                [Node (be_hosts (frame w2)); Nodes [be_dash (frame w2)]] w2)
    as H3.
  set (w3 := logGroup _ _ w2) in *.
  pose proof (log_only_console (Message "Hawk: looking") w3) as H3'.
  unfold Hawkeye.new. cbn [fst snd].
  set (w3' := log (Message "Hawk: looking") w3) in *.
  set (v := {| hk_source := be_hosts (frame w2);
               hk_targets := [be_dash (frame w2)];
               hk_signal := signal c;
               hk_debounce := Hawkeye.ignore_too_early_call w3' |}).
  set (w4 := set_next_ref S (set_hawkeyes <[next_ref w3' := v]> w3')).
  assert (Hv : hawkeyes w4 !! next_ref w3' = Some v).
  { unfold w4. simpl. apply lookup_insert_eq. }
  destruct (connect_effect (next_ref w3') w4 v Hv)
    as (w5 & E & Hw & Ho & _).
  exists w5. split; [exact E|].
  assert (Hchain : ∀ {A} (f : World → A),
            (∀ g u, f (set_console g u) = f u) →
            f w3' = f w2).
  { intros A f Hf. by rewrite H3', Hf, H3, Hf. }
  assert (Hn : next_ref w3' = next_ref w).
  { rewrite (Hchain _ next_ref) by done. unfold w2. simpl. by rewrite H1. }
  rewrite Hn. split; [done|].
  split; [|split; [|split; [|split; [|split; [|split; [|split]]]]]].
  - rewrite (wired_frame _ _ Hw). unfold w4. simpl.
    rewrite (Hchain _ frame) by done. unfold w2. simpl. by rewrite H1.
  - rewrite (wired_intervals _ _ Hw). unfold w4. simpl.
    rewrite (Hchain _ intervals) by done. unfold w2. simpl. by rewrite H1.
  - rewrite (wired_next_interval _ _ Hw). unfold w4. simpl.
    rewrite (Hchain _ next_interval) by done. unfold w2. simpl.
    by rewrite H1.
  - rewrite (wired_blinkers _ _ Hw). unfold w4. simpl.
    rewrite (Hchain _ blinkers) by done. unfold w2. simpl. by rewrite H1.
  - rewrite (wired_audios _ _ Hw). unfold w4. simpl.
    rewrite (Hchain _ audios) by done. unfold w2. simpl. by rewrite H1.
  - rewrite (wired_classList _ _ Hw). unfold w4. simpl.
    rewrite (Hchain _ classList) by done. unfold w2. simpl. by rewrite H1.
  - rewrite (wired_play_outcomes _ _ Hw). unfold w4. simpl.
    rewrite (Hchain _ play_outcomes) by done. unfold w2. simpl.
    by rewrite H1.
  - intros n o Hin. unfold registered at 1. rewrite Ho.
    apply observe_keeps. unfold registered. rewrite log_console.
    unfold w4. simpl. rewrite (Hchain _ observers) by done.
    unfold w2. simpl. by rewrite H1.
Qed.
End Controller.


(** X20.  On a page that is not the birdseye, and before any
    [attack()], [wake()] only logs: the controller's variables and the
    world, console apart, are as before. *)
Theorem wake_elsewhere_only_logs (c : HawkVars) (w : World) :
  endsWith (URL (frame w)) route = false →
  observer c = None →
  (nagios_hawk.wake c w).1 = c
  ∧ ∃ w', (nagios_hawk.wake c w).2 = Normal w' ∧ only_console w w'.
Proof.
  intros Hurl Hobs. unfold nagios_hawk.wake, nagios_hawk.is_birdseye.
  fold route.
  assert (E : endsWith (URL (frame (log (Message "Hawk: wake") w))) route
              = false) by (by rewrite log_console).
  rewrite E. unfold nagios_hawk.rest. rewrite Hobs. simpl.
  split; [done|]. eexists. split; [done|].
  eapply only_console_trans; [apply log_only_console|].
  eapply only_console_trans; apply log_only_console.
Qed.

Lemma wake_elsewhere_only_logs_witness :
  let w := set_frame (λ _, elsewhere) page.2 in
  (nagios_hawk.wake page.1 w).1 = page.1
  ∧ ∃ w', (nagios_hawk.wake page.1 w).2 = Normal w' ∧ only_console w w'.
Proof.
  intros w. apply wake_elsewhere_only_logs.
  - vm_compute. reflexivity.
  - vm_compute. reflexivity.
Defined.

(** ** The signals of the page *)

Section PageSignals.
Implicit Types (w : World) (c : HawkVars) (h : ref).

Lemma leaf_start_same_signals cb w : same_signals w (leaf_start cb w).
Proof. apply same_signals_signal_only, leaf_start_signal_only. Qed.

Lemma leaf_stop_same_signals cb w : same_signals w (leaf_stop cb w).
Proof. apply same_signals_signal_only, leaf_stop_signal_only. Qed.

Lemma fire_same_signals (t : nat) w : same_signals w (fire t w).
Proof.
  apply same_signals_signal_only. unfold fire.
  destruct (intervals w !! t) as [[[b|a] p]|];
    [apply update_signal_only|apply play_signal_only|apply signal_only_refl].
Qed.

Lemma clicked_same_signals (e : Elem) w : same_signals w (clicked e w).
Proof.
  apply (fold_same_signals (λ l w, settled (Controls.stop (object l) w))).
  intros l w'. rewrite object_stop. simpl.
  apply (fold_same_signals leaf_stop), leaf_stop_same_signals.
Qed.

Lemma debounce_same_signals h (g : Debounce) w w' :
  same_signals w w' →
  same_signals w (set_hawkeyes (alter (set_hk_debounce g) h) w').
Proof. by intros []. Qed.

Lemma callback_same_signals h w :
  same_signals w (settled (Hawkeye.callback h w)).
Proof.
  unfold Hawkeye.callback.
  destruct (hawkeyes w !! h) as [v|]; [|apply same_signals_refl].
  unfold Hawkeye.wrapped.
  assert (H1 : ∀ w1, same_signals w1
                       (foldl (λ w cb, leaf_start cb w) w1
                          (tickers (hk_signal v)))).
  { intros w1. apply (fold_same_signals leaf_start), leaf_start_same_signals. }
  pose proof (same_signals_wiring_only _ _ (log_wiring_only
    (Message "Hawk: drop too early first change event") w)) as H2.
  destruct (hk_debounce v) as [[] [] m];
    case_bool_decide; simpl; rewrite ?object_start; simpl;
    apply debounce_same_signals;
    first [apply same_signals_refl | exact H2 | apply H1
          | (eapply same_signals_trans; [exact H2|apply H1])].
Qed.

Lemma mutated_same_signals (n : Elem) w : same_signals w (mutated n w).
Proof.
  apply (fold_same_signals (λ o w, settled (Hawkeye.callback o w))).
  intros o w'. apply callback_same_signals.
Qed.

Lemma attack_same_signals c w :
  same_signals w (settled (nagios_hawk.attack c w).2).
Proof.
  destruct (attack_effect c w)
    as (w' & -> & _ & _ & _ & _ & Hb & Ha & _). simpl.
  split; congruence.
Qed.

Lemma rest_same_signals c w :
  same_signals w (settled (nagios_hawk.rest c w).2).
Proof.
  unfold nagios_hawk.rest.
  pose proof (same_signals_wiring_only _ _
                (log_wiring_only (Message "Hawk: rest") w)) as H1.
  destruct (observer c) as [h|]; simpl; [|done].
  set (w1 := log (Message "Hawk: rest") w) in *.
  destruct (hawkeyes w1 !! h) as [v|] eqn:H.
  - rewrite (disconnect_unfold h w1 v H). simpl.
    eapply same_signals_trans; [exact H1|].
    eapply same_signals_trans;
      [|apply (fold_same_signals (λ cb w, Signal.empty (holder cb) w));
        intros cb w'; apply same_signals_wiring_only, empty_wiring_only].
    eapply same_signals_trans;
      [|apply (fold_same_signals leaf_stop), leaf_stop_same_signals].
    apply same_signals_wiring_only.
    eapply wiring_only_trans; [apply log_wiring_only|].
    eapply wiring_only_trans; [apply unobserve_wiring_only|].
    eapply wiring_only_trans; [apply removeEventListener_wiring_only|].
    apply (fold_wiring_only (λ e w, removeEventListener e (hk_signal v) w)).
    intros e w'. apply removeEventListener_wiring_only.
  - unfold Hawkeye.disconnect. by rewrite H.
Qed.

Lemma wake_same_signals c w :
  same_signals w (settled (nagios_hawk.wake c w).2).
Proof.
  unfold nagios_hawk.wake, nagios_hawk.is_birdseye.
  assert (H1 : ∀ m, same_signals w
                      (log m (log (Message "Hawk: wake") w))).
  { intros m. apply same_signals_wiring_only.
    eapply wiring_only_trans; apply log_wiring_only. }
  destruct (endsWith _ _);
    (eapply same_signals_trans; [apply H1|]);
    [apply attack_same_signals|apply rest_same_signals].
Qed.

Lemma step_same_signals (ev : Event) (st : HawkVars * World) :
  same_signals st.2 (step ev st).2.
Proof.
  destruct ev; simpl.
  - apply (same_signals_trans _ (set_frame (λ _, doc) st.2));
      [by split|apply wake_same_signals].
  - apply attack_same_signals.
  - apply rest_same_signals.
  - apply wake_same_signals.
  - apply fire_same_signals.
  - apply clicked_same_signals.
  - apply mutated_same_signals.
  - by split.
  - by split.
  - by split.
Qed.

Lemma run_same_signals (evs : list Event) (st : HawkVars * World) :
  same_signals st.2 (run evs st).2.
Proof.
  revert st. induction evs as [|ev evs IH]; intros st; simpl.
  - apply same_signals_refl.
  - eapply same_signals_trans; [apply step_same_signals|apply IH].
Qed.

Lemma page_signals (clock : Z) (silent : bool) (l : list bool)
    (doc : Document) :
  dom (blinkers (nagios_hawk.new (boot clock silent l doc)).2) = {[0]}
  ∧ dom (audios (nagios_hawk.new (boot clock silent l doc)).2) = {[1]}.
Proof. destruct silent; split; vm_compute; reflexivity. Qed.

Lemma size_at_most_one (o : option nat) :
  size (from_option (λ t, {[t]}) (∅ : gset nat) o) ≤ 1.
Proof.
  destruct o; cbn [from_option];
    [by rewrite size_singleton|rewrite size_empty; lia].
Qed.
End PageSignals.

(** X21.  However the page is driven after [nagios_hawk] returned
    (reloads, calls of the controls, ticks, clicks, child-list changes,
    clock and settings), there is one blinker and one alarm, the ones
    [nagios_hawk] built; every live interval runs the tick of that
    blinker or the replay of that alarm; and at most two intervals are
    live, one for each. *)
Theorem page_never_leaks_a_timer (clock : Z) (silent : bool)
    (l : list bool) (doc : Document) (evs : list Event) :
  let w := (run evs (nagios_hawk.new (boot clock silent l doc))).2 in
  dom (blinkers w) = {[0]}
  ∧ dom (audios w) = {[1]}
  ∧ (∀ t cb period, intervals w !! t = Some (cb, period) →
       cb = Update 0 ∨ cb = Replay 1)
  ∧ size (intervals w) ≤ 2.
Proof.
  intros w.
  destruct (page_signals clock silent l doc) as [Hb0 Ha0].
  destruct (run_same_signals evs (nagios_hawk.new (boot clock silent l doc)))
    as [Hb Ha]. fold w in Hb, Ha. rewrite Hb0 in Hb. rewrite Ha0 in Ha.
  destruct (page_sound clock silent l doc evs) as [Hc _]. fold w in Hc.
  assert (Hcb : ∀ t cb period, intervals w !! t = Some (cb, period) →
                  cb = Update 0 ∨ cb = Replay 1).
  { intros t cb p Ht. apply (timers_owned w Hc) in Ht.
    destruct cb as [b|a]; simpl in Ht.
    - left. f_equal.
      destruct (blinkers w !! b) as [v|] eqn:E; [|done].
      apply elem_of_dom_2 in E. rewrite Hb in E. set_solver.
    - right. f_equal.
      destruct (audios w !! a) as [v|] eqn:E; [|done].
      apply elem_of_dom_2 in E. rewrite Ha in E. set_solver. }
  split; [done|]. split; [done|]. split; [done|].
  rewrite <- size_dom.
  set (X := from_option (λ t, {[t]}) (∅ : gset nat)
              (schedule_of (Update 0) w)).
  set (Y := from_option (λ t, {[t]}) (∅ : gset nat)
              (schedule_of (Replay 1) w)).
  assert (Hsub : dom (intervals w) ⊆ X ∪ Y).
  { intros t Ht. apply elem_of_dom in Ht as [[cb p] Ht].
    pose proof (timers_owned w Hc _ _ _ Ht) as Ho.
    destruct (Hcb _ _ _ Ht) as [-> | ->]; apply elem_of_union.
    - left. unfold X. rewrite Ho. cbn [from_option]. set_solver.
    - right. unfold Y. rewrite Ho. cbn [from_option]. set_solver. }
  apply subseteq_size in Hsub.
  pose proof (size_union_alt X Y) as Hu.
  assert (HY : size (Y ∖ X) ≤ size Y).
  { apply subseteq_size. intros t Ht. by apply elem_of_difference in Ht as []. }
  pose proof (size_at_most_one (schedule_of (Update 0) w)).
  pose proof (size_at_most_one (schedule_of (Replay 1) w)).
  fold X in H. fold Y in H0. lia.
Qed.
